(** * fuel_upgrade.utils.topological_sorting

    A shallow embedding of [topological_sorting] from
    [fuel_upgrade/utils.py] and the properties of the order it returns.

    The dependency graph is a Python [dict] from node names (strings) to
    lists of node names; it is embedded as a [gmap string (list string)].
    Python compares [str] keys bytewise, which is the lexicographic order
    [String.le] of stdpp. *)

From stdpp Require Import gmap strings list fin_maps sorting relations.

Abbreviation dep_graph_t := (gmap string (list string)).
Abbreviation item_t := (string * list string)%type.

(** ** The embedding *)

(** The exceptions the body can raise: the explicit [raise] of the
    function, and the [KeyError] of [del graph[node]] on a missing key.
    The source formats the remaining [graph] into the message of
    [CyclicDependenciesError]; the exception carries that graph here. *)
Inductive exn :=
  | CyclicDependenciesError (graph : dep_graph_t)
  | KeyError (key : string).

(** What a call produces: the returned list or a raised exception. *)
Inductive outcome :=
  | Return (sorted_nodes : list string)
  | Raise (e : exn).

(** [key=lambda n: n[0]]: items are compared by their node name,
    whatever their values are. *)
Definition item_le {V} (x y : string * V) : Prop := String.le x.1 y.1.

#[global] Instance item_le_dec {V} : RelDecision (@item_le V).
Proof. intros x y. unfold item_le. apply _. Defined.

(** [sorted(items, key=lambda n: n[0])] *)
Definition sorted {V} (items : list (string * V)) : list (string * V) :=
  merge_sort item_le items.

(** [dependency in graph] *)
Definition in_graph (graph : dep_graph_t) (dependency : string) : bool :=
  bool_decide (is_Some (graph !! dependency)).

(** The inner [for dependency in dependencies: if dependency in graph: break].
    The result is [true] when the loop ran to its end, which is when
    Python runs the [else] branch of the [for]. *)
Fixpoint for_dependencies (graph : dep_graph_t) (dependencies : list string) : bool :=
  match dependencies with
  | [] => true
  | dependency :: dependencies' =>
      if in_graph graph dependency then false
      else for_dependencies graph dependencies'
  end.

(** The local variables the outer [for] loop updates. *)
Record locals := Locals {
  graph : dep_graph_t;
  sorted_nodes : list string;
  cyclic : bool
}.

(** The locals when the [while] loop is entered: [sorted_nodes = []] and
    [graph] the copy of [dep_graph]. [cyclic] is not yet bound; every
    round sets it before it is read. *)
Definition initial (dep_graph : dep_graph_t) : locals :=
  {| graph := dep_graph; sorted_nodes := []; cyclic := true |}.

(** [del graph[node]] *)
Definition del_item (graph : dep_graph_t) (node : string) : exn + dep_graph_t :=
  match graph !! node with
  | Some _ => inr (delete node graph)
  | None => inl (KeyError node)
  end.

(** One iteration of [for node, dependencies in sorted(...)]. *)
Definition for_body (st : locals) (item : item_t) : exn + locals :=
  let '(node, dependencies) := item in
  if for_dependencies (graph st) dependencies then
    match del_item (graph st) node with
    | inl e => inl e
    | inr graph' =>
        inr {| graph := graph';
               sorted_nodes := sorted_nodes st ++ [node];
               cyclic := false |}
    end
  else inr st.

(** The outer [for] loop over the sorted snapshot of the items. *)
Fixpoint for_items (items : list item_t) (st : locals) : exn + locals :=
  match items with
  | [] => inr st
  | item :: items' =>
      match for_body st item with
      | inl e => inl e
      | inr st' => for_items items' st'
      end
  end.

Section iteration_order.
(** [graph.items()]: a Python 2 dict lists its items in an order the
    language does not specify. *)
Variable dict_items : dep_graph_t → list item_t.

(** One round of [while graph:]: [cyclic = True], then the [for] loop. *)
Definition while_body (st : locals) : exn + locals :=
  for_items (sorted (dict_items (graph st)))
    {| graph := graph st; sorted_nodes := sorted_nodes st; cyclic := true |}.

(** [while graph: ...; return sorted_nodes]. [None] means that the
    fuel ran out before the loop ended. *)
Fixpoint while_graph (fuel : nat) (st : locals) : option outcome :=
  if decide (graph st = ∅) then Some (Return (sorted_nodes st))
  else
    match fuel with
    | O => None
    | S fuel' =>
        match while_body st with
        | inl e => Some (Raise e)
        | inr st' =>
            if cyclic st' then
              Some (Raise (CyclicDependenciesError (graph st')))
            else while_graph fuel' st'
        end
    end.

(** [sorted_nodes = []; graph = deepcopy(dep_graph); while ...].
    A graph passed by value is its own copy; the copying of the objects
    is in the module [Heap] below. The loop is given one unit of fuel per
    key of the graph. *)
Definition topological_sorting_with (dep_graph : dep_graph_t) : option outcome :=
  while_graph (size dep_graph) (initial dep_graph).
End iteration_order.

(** The function on the canonical enumeration of a finite map. *)
Definition topological_sorting (dep_graph : dep_graph_t) : option outcome :=
  topological_sorting_with map_to_list dep_graph.

(** ** Notions the properties are stated with *)

(** [edge g n p]: [p] is a declared prerequisite of the node [n] and is
    itself a node of [g]. *)
Definition edge (g : dep_graph_t) (n p : string) : Prop :=
  ∃ deps, g !! n = Some deps ∧ p ∈ deps ∧ is_Some (g !! p).

(** A cycle among the keys: some node reaches itself along one or more
    edges. *)
Definition has_cycle (g : dep_graph_t) : Prop := ∃ n, tc (edge g) n n.

Definition acyclic (g : dep_graph_t) : Prop := ∀ n, ¬ tc (edge g) n n.

(** [earlier l p n]: [p] stands at a strictly earlier position of [l]
    than [n]. *)
Definition earlier (l : list string) (p n : string) : Prop :=
  ∃ i j, l !! i = Some p ∧ l !! j = Some n ∧ i < j.

(** A valid total order of [g]: every key exactly once, every
    prerequisite that is a key before the node that declares it. *)
Definition is_topological_order (g : dep_graph_t) (l : list string) : Prop :=
  NoDup l ∧
  (∀ k, k ∈ l ↔ is_Some (g !! k)) ∧
  (∀ n p, edge g n p → earlier l p n).

(** Every node of [r] has a prerequisite that is a node of [r]. *)
Definition blocked (r : dep_graph_t) : Prop :=
  ∀ n deps, r !! n = Some deps → ∃ p, p ∈ deps ∧ is_Some (r !! p).

(** [emits g ns g']: starting from [g], the nodes [ns] can be taken out
    one after the other, each at a moment when none of its prerequisites
    is a key of what remains, leaving [g']. *)
Inductive emits : dep_graph_t → list string → dep_graph_t → Prop :=
  | emits_nil g : emits g [] g
  | emits_cons g n deps ns g' :
      g !! n = Some deps →
      (∀ p, p ∈ deps → g !! p = None) →
      emits (delete n g) ns g' →
      emits g (n :: ns) g'.

(** The graph that is left after one full scan of [g]. *)
Definition scan (g : dep_graph_t) : dep_graph_t :=
  match while_body map_to_list (initial g) with
  | inr st => graph st
  | inl _ => g
  end.

(** [deps] without the names that are not keys of [g]. *)
Definition known (g : dep_graph_t) (deps : list string) : list string :=
  filter (λ p, is_Some (g !! p)) deps.

(** The result [o] with the prerequisite lists of a remainder cut down
    to the keys of [g]. *)
Definition known_outcome (g : dep_graph_t) (o : outcome) : outcome :=
  match o with
  | Return l => Return l
  | Raise (CyclicDependenciesError r) =>
      Raise (CyclicDependenciesError (known g <$> r))
  | Raise (KeyError k) => Raise (KeyError k)
  end.

(** The loop state with the prerequisite lists cut down in the same way. *)
Definition known_locals (g : dep_graph_t) (st : locals) : locals :=
  {| graph := known g <$> graph st; sorted_nodes := sorted_nodes st;
     cyclic := cyclic st |}.

(** Ascending identifier order, strictly. *)
Definition before (a b : string) : Prop := String.le a b ∧ a ≠ b.

(** ** The double-buffered variant of the specification

    The variant follows the design note of the specification: each pass
    takes a stable snapshot of the remaining items in sorted order,
    decides for every node of the snapshot whether all its prerequisites
    are absent from the keys remaining at the start of the pass, and only
    then removes the nodes found eligible. *)

(** Every prerequisite of the item is absent from [remaining]. *)
Definition eligible (remaining : dep_graph_t) (item : item_t) : bool :=
  forallb (λ p, negb (in_graph remaining p)) item.2.

(** The nodes found eligible in one pass, in sorted order. *)
Definition eligible_this_pass (remaining : dep_graph_t) : list string :=
  (filter (λ item, eligible remaining item = true)
     (sorted (map_to_list remaining))).*1.

(** The removals, applied after the pass. *)
Definition remove_all (ns : list string) (remaining : dep_graph_t) : dep_graph_t :=
  foldl (λ g n, delete n g) remaining ns.

Fixpoint double_buffered_loop (fuel : nat) (remaining : dep_graph_t)
    (output : list string) : option outcome :=
  if decide (remaining = ∅) then Some (Return output)
  else
    match fuel with
    | O => None
    | S fuel' =>
        let ns := eligible_this_pass remaining in
        if decide (ns = []) then
          Some (Raise (CyclicDependenciesError remaining))
        else double_buffered_loop fuel' (remove_all ns remaining) (output ++ ns)
    end.

Definition double_buffered_sorting (dep_graph : dep_graph_t) : option outcome :=
  double_buffered_loop (size dep_graph) dep_graph [].

(** ** The function on a heap of Python objects

    The embedding above passes the graph by value. Python passes a
    reference to a mutable [dict] whose values are references to mutable
    lists, so what the caller can observe after the call is decided by
    which objects the body writes to. This module runs the same body on
    an explicit heap. *)

Module Heap.

Abbreviation loc := positive.

(** The objects the function handles: dicts from names to references,
    and lists of names. Names are immutable strings and are held by
    value. *)
Inductive object :=
  | Dict (d : gmap string loc)
  | List (xs : list string).

Abbreviation heap := (gmap loc object).

(** A computation on the heap. It gives the new heap together with a
    value or a raised exception; [None] is a computation that cannot go
    on: an object of the wrong kind, or no fuel left. *)
Definition M (A : Type) : Type := heap → option (heap * (exn + A)).

Definition ret {A} (a : A) : M A := λ h, Some (h, inr a).

Definition bind {A B} (m : M A) (k : A → M B) : M B :=
  λ h, match m h with
       | Some (h', inr a) => k a h'
       | Some (h', inl e) => Some (h', inl e)
       | None => None
       end.

Definition raise {A} (e : exn) : M A := λ h, Some (h, inl e).

Definition stuck {A} : M A := λ _, None.

Notation "'let!' x ':=' m 'in' k" := (bind m (λ x, k))
  (at level 10, x name, m at level 100, k at level 200,
   format "'[v' 'let!'  x  ':='  m  'in' '/' k ']'").

(** A new object, at a location that is not in use. *)
Definition alloc (o : object) : M loc :=
  λ h, let l := fresh (dom h) in Some (<[l := o]> h, inr l).

Definition read_dict (l : loc) : M (gmap string loc) :=
  λ h, match h !! l with
       | Some (Dict d) => Some (h, inr d)
       | _ => None
       end.

Definition read_list (l : loc) : M (list string) :=
  λ h, match h !! l with
       | Some (List xs) => Some (h, inr xs)
       | _ => None
       end.

Definition write (l : loc) (o : object) : M unit :=
  λ h, Some (<[l := o]> h, inr tt).

(** The list a reference stands for, and the graph a dict of references
    stands for. *)
Definition deref (h : heap) (l : loc) : list string :=
  match h !! l with
  | Some (List xs) => xs
  | _ => []
  end.

Definition view (h : heap) (d : gmap string loc) : dep_graph_t :=
  deref h <$> d.

(** [deepcopy] of the standard library, on the objects above. [memo]
    maps the objects already copied to their copies. *)
Definition deepcopy_list (memo : gmap loc loc) (x : loc)
    : M (gmap loc loc * loc) :=
  match memo !! x with
  | Some y => ret (memo, y)
  | None =>
      let! xs := read_list x in
      let! y := alloc (List xs) in
      ret (<[x := y]> memo, y)
  end.

Fixpoint deepcopy_items (y : loc) (memo : gmap loc loc)
    (items : list (string * loc)) : M unit :=
  match items with
  | [] => ret tt
  | (key, value) :: items' =>
      let! r := deepcopy_list memo value in
      let! d := read_dict y in
      let! _ := write y (Dict (<[key := r.2]> d)) in
      deepcopy_items y r.1 items'
  end.

Definition deepcopy (x : loc) : M loc :=
  let! d := read_dict x in
  let! y := alloc (Dict ∅) in
  let! _ := deepcopy_items y {[x := y]} (map_to_list d) in
  ret y.

(** [u'Cyclic dependencies error {0}'.format(graph)]: the message shows
    the dict and the lists it refers to as they are at that moment. *)
Definition format (graph : loc) : M dep_graph_t :=
  let! g := read_dict graph in
  λ h, Some (h, inr (view h g)).

(** The inner [for] loop; [true] when it ran to its end. *)
Fixpoint for_dependencies (graph : loc) (dependencies : list string) : M bool :=
  match dependencies with
  | [] => ret true
  | dependency :: dependencies' =>
      let! g := read_dict graph in
      if decide (is_Some (g !! dependency)) then ret false
      else for_dependencies graph dependencies'
  end.

(** [del graph[node]] *)
Definition del_item (graph : loc) (node : string) : M unit :=
  let! g := read_dict graph in
  match g !! node with
  | Some _ => write graph (Dict (delete node g))
  | None => raise (KeyError node)
  end.

(** [sorted_nodes.append(node)] *)
Definition append (sorted_nodes : loc) (node : string) : M unit :=
  let! xs := read_list sorted_nodes in
  write sorted_nodes (List (xs ++ [node])).

(** One iteration of the outer [for] loop; the value is [cyclic]. *)
Definition for_body (graph sorted_nodes : loc) (cyclic : bool)
    (item : string * loc) : M bool :=
  let! dependencies := read_list item.2 in
  let! ran_to_end := for_dependencies graph dependencies in
  if ran_to_end then
    let! _ := del_item graph item.1 in
    let! _ := append sorted_nodes item.1 in
    ret false
  else ret cyclic.

Fixpoint for_items (graph sorted_nodes : loc) (items : list (string * loc))
    (cyclic : bool) : M bool :=
  match items with
  | [] => ret cyclic
  | item :: items' =>
      let! cyclic' := for_body graph sorted_nodes cyclic item in
      for_items graph sorted_nodes items' cyclic'
  end.

Fixpoint while_graph (fuel : nat) (graph sorted_nodes : loc) : M loc :=
  let! g := read_dict graph in
  if decide (g = ∅) then ret sorted_nodes
  else
    match fuel with
    | O => stuck
    | S fuel' =>
        let! cyclic := for_items graph sorted_nodes (sorted (map_to_list g)) true in
        if cyclic then
          let! message := format graph in
          raise (CyclicDependenciesError message)
        else while_graph fuel' graph sorted_nodes
    end.

Definition topological_sorting (dep_graph : loc) : M loc :=
  let! sorted_nodes := alloc (List []) in
  let! graph := deepcopy dep_graph in
  let! g := read_dict graph in
  while_graph (size g) graph sorted_nodes.

(** [x] refers to a dependency graph: a dict all of whose values refer
    to lists. *)
Definition holds_list (h : heap) (v : loc) : bool :=
  match h !! v with
  | Some (List _) => true
  | _ => false
  end.

Definition holds_graph (h : heap) (x : loc) : bool :=
  match h !! x with
  | Some (Dict d) => forallb (λ item, holds_list h item.2) (map_to_list d)
  | _ => false
  end.

(** The graph the caller sees through the reference [x]. *)
Definition graph_at (h : heap) (x : loc) : dep_graph_t :=
  match h !! x with
  | Some (Dict d) => view h d
  | _ => ∅
  end.

(** A caller's heap: the graph with ["A"] without prerequisites and
    ["B"] waiting for ["A"], at location 1. *)
Definition sample_heap : heap :=
  {[ 1%positive := Dict {[ "A" := 2%positive; "B" := 3%positive ]};
     2%positive := List [];
     3%positive := List ["A"] ]}.

End Heap.

(** What ties a heap [h] during the loop to the state [st] of the
    embedding by value: the dict at [gref] stands for [graph st], the
    list at [sref] is [sorted_nodes st], the lists the dict refers to are
    other objects than these two, and every object of the caller's heap
    [caller] is as the caller left it. *)
Definition simulates (caller : Heap.heap) (gref sref : Heap.loc)
    (h : Heap.heap) (st : locals) : Prop :=
  ∃ d, h !! gref = Some (Heap.Dict d) ∧
       graph st = Heap.view h d ∧
       h !! sref = Some (Heap.List (sorted_nodes st)) ∧
       gref ≠ sref ∧
       caller !! gref = None ∧ caller !! sref = None ∧
       (∀ l, is_Some (caller !! l) → h !! l = caller !! l) ∧
       (∀ k v, d !! k = Some v →
          v ≠ gref ∧ v ≠ sref ∧ ∃ xs, h !! v = Some (Heap.List xs)).

(** ** Sample graphs *)

Definition diamond : dep_graph_t :=
  {[ "A" := []; "B" := ["A"]; "C" := ["A"]; "D" := ["B"; "C"] ]}.

Definition direct_cycle : dep_graph_t := {[ "A" := ["B"]; "B" := ["A"] ]}.

Definition self_cycle : dep_graph_t := {[ "A" := ["A"] ]}.

Definition partial_cycle : dep_graph_t :=
  {[ "A" := []; "B" := ["C"]; "C" := ["B"] ]}.

(** A node whose only prerequisite is not a key of the graph. *)
Definition missing_prerequisite : dep_graph_t := {[ "A" := ["X"] ]}.

(** A cycle one of whose nodes also names a prerequisite that is not a
    key. *)
Definition cycle_with_missing : dep_graph_t :=
  {[ "A" := ["B"; "X"]; "B" := ["A"] ]}.

(** Two nodes without prerequisites and, between them in the order of
    the names, a node that waits for the first. *)
Definition late_independent : dep_graph_t :=
  {[ "A" := []; "B" := ["A"]; "C" := [] ]}.

(** ** file_contains_lines *)

Section file_contains_lines.
(** [regexp.search(line)] finds a match. A pattern stands for the
    regular expression compiled from it. *)
Variable search : string → string → bool.

(** [for i, regexp in enumerate(regexps): if regexp.search(line): del regexps[i]].
    The iterator of a Python list holds an index: at each step it yields
    the element that the list has at that index at that moment, or ends
    when the index is past the end of the list. [enumerate] counts the
    steps, so [i] is that index. [steps] bounds the number of steps. *)
Fixpoint for_enumerate (steps : nat) (line : string) (i : nat)
    (regexps : list string) : list string :=
  match steps with
  | O => regexps
  | S steps' =>
      match regexps !! i with
      | None => regexps
      | Some regexp =>
          if search regexp line then
            for_enumerate steps' line (S i) (delete i regexps)
          else for_enumerate steps' line (S i) regexps
      end
  end.

(** The body of [for line in f]. The index moves on by one at every step
    and the list never grows, so a step for every element is enough. *)
Definition for_line (regexps : list string) (line : string) : list string :=
  for_enumerate (length regexps) line 0 regexps.

(** The function on the lines of the file: [True] when [regexps] is
    empty after the last line. *)
Definition file_contains_lines (lines patterns : list string) : bool :=
  match foldl for_line patterns lines with
  | [] => true
  | _ :: _ => false
  end.

(** What one line leaves of the patterns from some index on: a pattern
    that matches is taken out and the one after it is passed over. *)
Fixpoint survivors (line : string) (regexps : list string) : list string :=
  match regexps with
  | [] => []
  | regexp :: rest =>
      if search regexp line then
        match rest with
        | [] => []
        | next :: rest' => next :: survivors line rest'
        end
      else regexp :: survivors line rest
  end.
End file_contains_lines.

(** ** http_retry *)

(** What one call of the decorated function does: it returns a value,
    raises [requests.HTTPError] whose response has the given status
    code, or raises another exception. *)
Inductive call_result (V E : Type) :=
  | Returns (v : V)
  | RaisesHTTPError (status_code : Z)
  | RaisesOther (e : E).
Arguments Returns {V E} v.
Arguments RaisesHTTPError {V E} status_code.
Arguments RaisesOther {V E} e.

(** What a call of [_wrapped] does and what it took: [outcome] is [None]
    when the [for] loop ends without a [return] or a [raise], and the
    call returns Python's [None]. *)
Record wrapped_run (V E : Type) := WrappedRun {
  outcome_of : option (call_result V E);
  calls : nat;
  sleeps : nat
}.
Arguments WrappedRun {V E} outcome_of calls sleeps.
Arguments outcome_of {V E} w.
Arguments calls {V E} w.
Arguments sleeps {V E} w.

Section http_retry.
Context {V E : Type}.
(** [self._status_codes] and [self._attempts]. A count of attempts
    below one leaves [range(1, self._attempts + 1)] empty, as zero
    does. *)
Variable status_codes : list Z.
Variable attempts : nat.
(** The decorated function is called with the same arguments every
    time; [fn n] is what its call number [n] does, counting from 1. *)
Variable fn : nat → call_result V E.

(** [for attempt in range(1, self._attempts + 1)], from [attempt] on
    with [remaining] rounds to go. *)
Fixpoint for_attempt (remaining attempt slept : nat) : wrapped_run V E :=
  match remaining with
  | O => WrappedRun None (attempt - 1) slept
  | S remaining' =>
      match fn attempt with
      | Returns v => WrappedRun (Some (Returns v)) attempt slept
      | RaisesOther e => WrappedRun (Some (RaisesOther e)) attempt slept
      | RaisesHTTPError status_code =>
          if bool_decide (status_code ∉ status_codes)
             || bool_decide (attempt = attempts)
          then WrappedRun (Some (RaisesHTTPError status_code)) attempt slept
          else for_attempt remaining' (S attempt) (S slept)
      end
  end.

Definition _wrapped : wrapped_run V E := for_attempt attempts 1 0.

(** The calls before number [attempt] all raised an HTTP error with one
    of the status codes. *)
Definition all_retried (attempt : nat) : Prop :=
  ∀ n, 1 ≤ n < attempt →
    ∃ status_code, fn n = RaisesHTTPError status_code ∧
                   status_code ∈ status_codes.

(** Call number [attempt] ends the loop: it is the last attempt, or it
    does something else than raise an HTTP error with one of the status
    codes. *)
Definition ends_loop (attempt : nat) : Prop :=
  attempt = attempts ∨
  ∀ status_code, fn attempt = RaisesHTTPError status_code →
                 status_code ∉ status_codes.
End http_retry.

(** A function that fails with status 500 at its first call and
    returns at the second. *)
Definition fails_once (n : nat) : call_result string unit :=
  if decide (n = 1) then RaisesHTTPError 500 else Returns "ok".

(** ** normversion and extract_env_version *)

Import (notations) Stdlib.Strings.Ascii.

(** [s.split(sep)] for a separator of one character: the pieces of [s]
    between the occurrences of [sep]; the empty string gives one empty
    piece. *)
Fixpoint split (sep : Ascii.ascii) (s : string) : list string :=
  match s with
  | EmptyString => [EmptyString]
  | String c s' =>
      if decide (c = sep) then EmptyString :: split sep s'
      else
        match split sep s' with
        | piece :: pieces => String c piece :: pieces
        | [] => [String c EmptyString]
        end
  end.

(** The characters of a string. *)
Abbreviation chars := String.list_ascii_of_string.

(** [components = version.split('.')], then [components.append('0')]
    once for every element of [range(0, 3 - len(components))] when there
    are fewer than three, then ['.'.join(components)]. *)
Definition normversion (version : string) : string :=
  let components := split "."%char version in
  let components :=
    if decide (length components < 3) then
      components ++ replicate (3 - length components) "0"
    else components in
  String.concat "." components.

(** The exception of [release_version.split(separator)[1]] when the list
    has one element only. *)
Inductive index_error := IndexError.

Definition extract_env_version (release_version : string)
    : index_error + string :=
  if decide (release_version = "2014.1") then inr "5.0"
  else
    match split "-"%char release_version !! 1 with
    | Some part => inr part
    | None => inl IndexError
    end.

(** ** dict_merge and sanitize *)

(** The objects these functions take apart: dicts with string keys and
    lists (or tuples) of objects. Any other object is a leaf to them;
    strings, integers, booleans and [None] stand for the leaves. *)
#[local] Unset Elimination Schemes.
Inductive value :=
  | VStr (s : string)
  | VInt (n : Z)
  | VBool (b : bool)
  | VNone
  | VList (l : list value)
  | VDict (d : gmap string value).
#[local] Set Elimination Schemes.

(** The number of objects in an object. *)
Fixpoint value_size (v : value) : nat :=
  match v with
  | VList l => S (foldr (λ x n, value_size x + n) 0 l)
  | VDict d => S (map_fold (λ _ x n, value_size x + n) 0 d)
  | _ => 1
  end.

(** [isinstance(v, dict)] *)
Definition is_dict (v : value) : bool :=
  match v with
  | VDict _ => true
  | _ => false
  end.

(** [dict_merge(a, b)] for a dict [a], as the docstring asks and as the
    recursive call has it. [deepcopy] of a value is the value. The loop
    over [b.iteritems()] sets [result[k]] once for every key of [b]:
    to the merge of [result[k]] and [v] where [result] has a dict at
    [k], to [v] elsewhere. *)
Fixpoint dict_merge (a : gmap string value) (b : value) {struct b} : value :=
  match b with
  | VDict b' =>
      VDict (map_imap (λ k v,
               Some match a !! k with
                    | Some (VDict a') => dict_merge a' v
                    | _ => v
                    end) b' ∪ a)
  | _ => b
  end.

(** [key in option] for two strings: [key] occurs in [option]. *)
Fixpoint contains (key option : string) : bool :=
  String.prefix key option ||
  match option with
  | EmptyString => false
  | String _ rest => contains key rest
  end.

(** [any([key in option for key in keywords])] *)
Definition any_key_in (keywords : list string) (option : string) : bool :=
  existsb (λ key, contains key option) keywords.

(** [_helper] of [sanitize]: it writes [mask] over the value of every
    option of a dict that has a keyword in its name and goes into the
    other values, and into the elements of a list. *)
Fixpoint _helper (keywords : list string) (mask : string) (_obj : value)
    : value :=
  match _obj with
  | VDict d =>
      VDict (map_imap (λ option v,
               Some (if any_key_in keywords option then VStr mask
                     else _helper keywords mask v)) d)
  | VList l => VList (_helper keywords mask <$> l)
  | _ => _obj
  end.

(** [obj_copy = deepcopy(obj); return _helper(obj_copy)] *)
Definition sanitize (obj : value) (keywords : list string) (mask : string)
    : value :=
  _helper keywords mask obj.

(** A way into an object: through the key of a dict or the index of a
    list. *)
Inductive step :=
  | Key (k : string)
  | Index (i : nat).

Fixpoint lookup_path (path : list step) (v : value) : option value :=
  match path with
  | [] => Some v
  | Key k :: path' =>
      match v with
      | VDict d => d !! k ≫= lookup_path path'
      | _ => None
      end
  | Index i :: path' =>
      match v with
      | VList l => l !! i ≫= lookup_path path'
      | _ => None
      end
  end.

(** The object says nothing about the path: following the path through
    its dicts comes to a dict that lacks the next key. *)
Fixpoint silent (path : list step) (b : value) : Prop :=
  match path, b with
  | Key k :: path', VDict b' =>
      match b' !! k with
      | None => True
      | Some x => silent path' x
      end
  | _, _ => False
  end.

(** No key on the path has a keyword in its name. *)
Definition plain_step (keywords : list string) (st : step) : Prop :=
  match st with
  | Key k => any_key_in keywords k = false
  | Index _ => True
  end.

(** Settings with a password two dicts deep. *)
Definition sample_settings : value :=
  VDict {[ "user" := VDict {[ "name" := VStr "admin";
                              "password" := VStr "secret" ]};
           "hosts" := VList [VStr "a"; VStr "b"] ]}.

(** ** Sizes on disk *)

(** [byte / 1024 ** 2] on Python 2 integers: the quotient rounded
    down. *)
Definition byte_to_megabyte (byte : Z) : Z := (byte `div` 1024 ^ 2)%Z.

(** [os.path.join(a, b)] of [posixpath]. *)
Definition ends_with_slash (path : string) : bool :=
  match last (chars path) with
  | Some c => bool_decide (c = "/"%char)
  | None => false
  end.

Definition join (a b : string) : string :=
  if String.prefix "/" b then b
  else if bool_decide (a = "") || ends_with_slash a then a +:+ b
  else a +:+ "/" +:+ b.

(** Iterating over a string gives its characters as strings of length
    one. *)
Definition iter_str (s : string) : list string :=
  (λ c, String c EmptyString) <$> chars s.

(** An action of the upgrade: the dict with the keys ['name'], ['from']
    and ['to']. *)
Record action := Action {
  action_name : string;
  action_from : string;
  action_to : string
}.

Section sizes.
(** The file system as the functions see it: [os.path.isfile],
    [os.path.getsize], [os.path.isdir], [os.path.dirname], and for
    [os.walk(path, followlinks=True)] the pairs of [dirpath] and
    [filenames] it yields. *)
Variable isfile : string → bool.
Variable getsize : string → Z.
Variable isdir : string → bool.
Variable dirname : string → string.
Variable walk : string → list (string * list string).

(** [sum(os.path.getsize(f) for f in files_list if os.path.isfile(f))] *)
Definition sum_sizes (files_list : list string) : Z :=
  foldr Z.add 0%Z (getsize <$> filter (λ f, isfile f = true) files_list).

Definition files_size (files_list : list string) : Z :=
  byte_to_megabyte (sum_sizes files_list).

(** The two [for] loops of [dir_size], adding to [total_size]. *)
Definition for_filenames (dirpath : string) (total_size : Z)
    (filenames : list string) : Z :=
  foldl (λ total_size f,
           let fp := join dirpath f in
           if isfile fp then (total_size + getsize fp)%Z else total_size)
        total_size filenames.

Definition dir_size (path : string) : Z :=
  byte_to_megabyte
    (foldl (λ total_size entry, for_filenames entry.1 total_size entry.2)
           0%Z (walk path)).

(** Where a copy action puts its size, and the size it puts there. The
    source is passed to [files_size] as it is, a string, where it is
    not a directory. *)
Definition action_dst (a : action) : string :=
  if isdir (action_to a) then action_to a else dirname (action_to a).

Definition action_size (a : action) : Z :=
  if isdir (action_from a) then dir_size (action_from a)
  else files_size (iter_str (action_from a)).

(** The body of [for action in actions]. *)
Definition for_action (rv : gmap string Z) (a : action) : gmap string Z :=
  if decide (action_name a = "copy") then
    let dst := action_dst a in
    let rv := if decide (is_Some (rv !! dst)) then rv else <[dst := 0%Z]> rv in
    <[dst := (default 0%Z (rv !! dst) + action_size a)%Z]> rv
  else rv.

Definition get_required_size_for_actions (actions : list action)
    : gmap string Z :=
  foldl for_action ∅ actions.

(** The copy actions that put their size at [dst]. *)
Definition copies_to (dst : string) (actions : list action) : list action :=
  filter (λ a, action_name a = "copy" ∧ action_dst a = dst) actions.

(** The files that [dir_size] looks at, by their joined names. *)
Definition walked_files (path : string) : list string :=
  entry ← walk path; join entry.1 <$> entry.2.
End sizes.

(** ** verify_postgres_dump *)

Definition postgres_patterns : list string :=
  ["-- PostgreSQL database cluster dump";
   "-- PostgreSQL database dump";
   "-- PostgreSQL database dump complete";
   "-- PostgreSQL database cluster dump complete"].

(** [dump] holds the lines of the file at [pg_dump_path], or is [None]
    where [os.path.exists(pg_dump_path)] is false. *)
Definition verify_postgres_dump (search : string → string → bool)
    (dump : option (list string)) : bool :=
  match dump with
  | None => false
  | Some lines => file_contains_lines search lines postgres_patterns
  end.

(** The line matches none of the patterns. *)
Definition matches_none (search : string → string → bool)
    (patterns : list string) (line : string) : Prop :=
  Forall (λ p, search p line = false) patterns.

(** ** file_extension and VersionedFile *)

From Stdlib Require DecimalString DecimalNat.

(** [p.rfind(c)] for a character [c]: the index of its last occurrence
    in [p], or [-1]. *)
Fixpoint rfind (c : Ascii.ascii) (p : list Ascii.ascii) : Z :=
  match p with
  | [] => (-1)%Z
  | a :: p' =>
      let i := rfind c p' in
      if decide (0 ≤ i)%Z then (i + 1)%Z
      else if decide (a = c) then 0%Z else (-1)%Z
  end.

(** [os.path.splitext] of [posixpath]: the extension starts at the last
    dot of the last component of the path, unless only dots stand before
    that dot in the component. *)
Definition splitext (p : string) : string * string :=
  let sepIndex := rfind "/" (chars p) in
  let dotIndex := rfind "." (chars p) in
  if decide (sepIndex < dotIndex)%Z then
    let filename :=
      drop (Z.to_nat (sepIndex + 1)) (take (Z.to_nat dotIndex) (chars p)) in
    if existsb (λ a, negb (bool_decide (a = "."%char))) filename then
      (String.string_of_list_ascii (take (Z.to_nat dotIndex) (chars p)),
       String.string_of_list_ascii (drop (Z.to_nat dotIndex) (chars p)))
    else (p, "")
  else (p, "").

(** [_, ext = os.path.splitext(file_path); return ext[1:]] *)
Definition file_extension (file_path : string) : string :=
  String.string_of_list_ascii (drop 1 (chars (splitext file_path).2)).

(** [s.isdigit()] for a byte string: [s] is not empty and has decimal
    digits only. *)
Definition isdigit (s : string) : bool :=
  bool_decide (is_Some (DecimalString.NilZero.uint_of_string s)).

(** [int(s)]; [None] is the [ValueError] for a string that is not a
    number. Only strings of digits are passed. *)
Definition int (s : string) : option nat :=
  Nat.of_uint <$> DecimalString.NilZero.uint_of_string s.

(** ['{0}'.format(n)] for a number [n] that is not negative. *)
Definition str (n : nat) : string :=
  DecimalString.NilZero.string_of_uint (Nat.to_uint n).

(** [sorted(l, key=..., reverse=True)] on a list of elements with their
    keys: descending by key, elements of equal keys in the order they
    have in [l]. *)
Fixpoint insert_desc {A} (x : nat * A) (l : list (nat * A)) : list (nat * A) :=
  match l with
  | [] => [x]
  | y :: l' => if decide (y.1 ≤ x.1) then x :: y :: l' else y :: insert_desc x l'
  end.

Definition sorted_desc {A} (l : list (nat * A)) : list (nat * A) :=
  foldr insert_desc [] l.

Section versioned_file.
(** [self.basename], and the paths that
    [glob.glob(self._pattern.format('*'))] lists. The pattern is
    ['{0}.{{0}}'.format(self.basename)]; for a base name without
    braces, formatting it with [x] gives the base name, a dot and
    [x]. *)
Variable basename : string.
Variable glob : list string.

Definition _pattern_format (x : string) : string := basename +:+ "." +:+ x.

Definition _files_with_numeric_extension : list string :=
  filter (λ f, isdigit (file_extension f) = true) glob.

(** [key=lambda f: int(file_extension(f))] *)
Definition with_key (f : string) : option (nat * string) :=
  n ← int (file_extension f); Some (n, f).

Definition sorted_files : option (list string) :=
  keyed ← mapM with_key _files_with_numeric_extension;
  Some ((sorted_desc keyed).*2).

Definition _get_last_number : option nat :=
  files ← sorted_files;
  match files with
  | [] => Some 0
  | f :: _ => int (file_extension f)
  end.

Definition next_file_name : option string :=
  last_number ← _get_last_number;
  Some (_pattern_format (str (last_number + 1))).
End versioned_file.

(** [f] comes before [g] with [reverse=True]: the number of [g] is not
    above the number of [f]. *)
Definition number_desc (f g : string) : Prop :=
  ∃ m n, int (file_extension f) = Some m ∧ int (file_extension g) = Some n ∧
         n ≤ m.

(** ** Sample runs *)

Example run_empty : topological_sorting ∅ = Some (Return []).
Proof. reflexivity. Qed.

Example run_chain :
  topological_sorting {[ "A" := []; "B" := ["A"] ]} = Some (Return ["A"; "B"]).
Proof. vm_compute. reflexivity. Qed.

Example run_diamond :
  topological_sorting diamond = Some (Return ["A"; "B"; "C"; "D"]).
Proof. vm_compute. reflexivity. Qed.

Example run_direct_cycle :
  topological_sorting direct_cycle
  = Some (Raise (CyclicDependenciesError direct_cycle)).
Proof. vm_compute. reflexivity. Qed.

Example run_self_cycle :
  topological_sorting self_cycle
  = Some (Raise (CyclicDependenciesError self_cycle)).
Proof. vm_compute. reflexivity. Qed.

Example run_partial_cycle :
  topological_sorting partial_cycle
  = Some (Raise (CyclicDependenciesError {[ "B" := ["C"]; "C" := ["B"] ]})).
Proof. vm_compute. reflexivity. Qed.

Example run_missing_prerequisite :
  topological_sorting missing_prerequisite = Some (Return ["A"]).
Proof. vm_compute. reflexivity. Qed.

(** ** The inner loop and the membership test *)

Lemma in_graph_true (g : dep_graph_t) d : in_graph g d = true ↔ is_Some (g !! d).
Proof. unfold in_graph. by rewrite bool_decide_eq_true. Qed.

Lemma in_graph_false (g : dep_graph_t) d : in_graph g d = false ↔ g !! d = None.
Proof.
  unfold in_graph. rewrite bool_decide_eq_false. by rewrite eq_None_not_Some.
Qed.

Lemma for_dependencies_true (g : dep_graph_t) deps :
  for_dependencies g deps = true ↔ ∀ p, p ∈ deps → g !! p = None.
Proof.
  induction deps as [|d deps IH]; simpl.
  - split; [|done]. intros _ p Hp. by apply elem_of_nil in Hp.
  - destruct (in_graph g d) eqn:Hd.
    + apply in_graph_true in Hd. split; [done|].
      intros H. specialize (H d (list_elem_of_here _ _)).
      rewrite H in Hd. by destruct Hd.
    + apply in_graph_false in Hd. rewrite IH. split.
      * intros H p Hp. apply elem_of_cons in Hp as [->|Hp]; auto.
      * intros H p Hp. apply H. by right.
Qed.

Lemma for_dependencies_false (g : dep_graph_t) deps :
  for_dependencies g deps = false ↔ ∃ p, p ∈ deps ∧ is_Some (g !! p).
Proof.
  induction deps as [|d deps IH]; simpl.
  - split; [done|]. intros (p & Hp & _). by apply elem_of_nil in Hp.
  - destruct (in_graph g d) eqn:Hd.
    + apply in_graph_true in Hd. split; [|done].
      intros _. exists d. split; [left|done].
    + apply in_graph_false in Hd. rewrite IH. split.
      * intros (p & Hp & Hs). exists p. split; [by right|done].
      * intros (p & Hp & Hs). exists p. split; [|done].
        apply elem_of_cons in Hp as [->|Hp]; [|done].
        rewrite Hd in Hs. by destruct Hs.
Qed.

(** ** Elimination sequences *)

Lemma emits_app g l1 g1 l2 g2 :
  emits g l1 g1 → emits g1 l2 g2 → emits g (l1 ++ l2) g2.
Proof.
  induction 1 as [|g n deps ns g' Hn Hd _ IH]; simpl; [done|].
  intros H2. eapply emits_cons; eauto.
Qed.

Lemma emits_subseteq g l g' : emits g l g' → g' ⊆ g.
Proof.
  induction 1 as [|g n deps ns g' Hn Hd _ IH]; [done|].
  etrans; [exact IH|]. apply delete_subseteq.
Qed.

Lemma emits_lookup g l g' k :
  emits g l g' → g' !! k = if decide (k ∈ l) then None else g !! k.
Proof.
  induction 1 as [|g n deps ns g' Hn Hd _ IH].
  - rewrite decide_False; [done|]. apply not_elem_of_nil.
  - rewrite IH. destruct (decide (k = n)) as [->|Hne].
    + rewrite lookup_delete_eq. rewrite (decide_True (P := n ∈ n :: ns)) by left.
      by case_decide.
    + rewrite lookup_delete_ne by done.
      destruct (decide (k ∈ ns)) as [Hin|Hin].
      * rewrite decide_True; [done|by right].
      * rewrite decide_False; [done|]. rewrite elem_of_cons. tauto.
Qed.

Lemma emits_elem_of g l g' k : emits g l g' → k ∈ l → is_Some (g !! k).
Proof.
  induction 1 as [|g n deps ns g' Hn Hd _ IH]; intros Hk.
  - by apply elem_of_nil in Hk.
  - apply elem_of_cons in Hk as [->|Hk]; [by eexists|].
    specialize (IH Hk). destruct (decide (k = n)) as [->|Hne].
    + by rewrite lookup_delete_eq in IH; destruct IH.
    + by rewrite lookup_delete_ne in IH.
Qed.

Lemma emits_NoDup g l g' : emits g l g' → NoDup l.
Proof.
  induction 1 as [|g n deps ns g' Hn Hd He IH]; constructor; [|done].
  intros Hin. apply (emits_elem_of _ _ _ _ He) in Hin.
  rewrite lookup_delete_eq in Hin. by destruct Hin.
Qed.

Lemma emits_earlier g l g' n p :
  emits g l g' → n ∈ l → edge g n p → earlier l p n.
Proof.
  induction 1 as [|g m deps ns g' Hm Hd He IH]; intros Hn Hedge.
  - by apply elem_of_nil in Hn.
  - destruct Hedge as (dn & Hgn & Hp & Hsp).
    destruct (decide (n = m)) as [->|Hne].
    + rewrite Hm in Hgn. injection Hgn as <-.
      rewrite (Hd p Hp) in Hsp. by destruct Hsp.
    + apply elem_of_cons in Hn as [?|Hn]; [done|].
      destruct (decide (p = m)) as [->|Hpm].
      * apply list_elem_of_lookup in Hn as [j Hj].
        exists 0, (S j). split_and!; [done|done|lia].
      * destruct IH as (i & j & Hi & Hj & Hij); [done| |].
        { exists dn. by rewrite !lookup_delete_ne. }
        exists (S i), (S j). split_and!; [done|done|lia].
Qed.

(** A set of nodes each of which has a prerequisite inside the set loses
    no member to an elimination sequence. *)
Lemma emits_stuck (P : string → Prop) g l g' :
  emits g l g' →
  (∀ n, P n → ∃ deps p, g !! n = Some deps ∧ p ∈ deps ∧ P p) →
  ∀ n, P n → n ∉ l.
Proof.
  induction 1 as [|g m deps ns g' Hm Hd He IH]; intros HP n Hn.
  - apply not_elem_of_nil.
  - assert (¬ P m) as HPm.
    { intros Hbad. destruct (HP m Hbad) as (dm & p & Hgm & Hp & HPp).
      rewrite Hm in Hgm. injection Hgm as <-.
      destruct (HP p HPp) as (dp & _ & Hgp & _).
      rewrite (Hd p Hp) in Hgp. done. }
    rewrite not_elem_of_cons. split; [by intros ->|].
    apply IH; [|done].
    intros k Hk. destruct (HP k Hk) as (dk & p & Hgk & Hp & HPp).
    exists dk, p. rewrite lookup_delete_ne; [done|]. by intros ->.
Qed.

Lemma emits_size g l g' : emits g l g' → size g = length l + size g'.
Proof.
  induction 1 as [|g n deps ns g' Hn Hd _ IH]; [done|]. simpl.
  rewrite <-IH. rewrite (map_size_delete_Some n g) by eauto.
  assert (size g ≠ 0); [|lia].
  apply map_size_non_empty_iff. intros ->. by rewrite lookup_empty in Hn.
Qed.

Lemma emits_all g l : emits g l ∅ → ∀ k, k ∈ l ↔ is_Some (g !! k).
Proof.
  intros He k. split; [by apply emits_elem_of with (g' := ∅)|].
  intros Hk. pose proof (emits_lookup _ _ _ k He) as Hl.
  rewrite lookup_empty in Hl. destruct (decide (k ∈ l)); [done|].
  rewrite <-Hl in Hk. by destruct Hk.
Qed.

(** An elimination sequence that empties the graph is a valid order. *)
Lemma emits_topological_order g l : emits g l ∅ → is_topological_order g l.
Proof.
  intros He. split_and!.
  - by eapply emits_NoDup.
  - by apply emits_all.
  - intros n p Hedge. eapply emits_earlier; [done| |done].
    apply (emits_all _ _ He). destruct Hedge as (d & -> & _). by eexists.
Qed.

(** ** Sorting the items *)

#[global] Instance item_le_trans {V} : Transitive (@item_le V).
Proof. intros x y z. unfold item_le. apply transitivity. Qed.

#[global] Instance item_le_total {V} : Total (@item_le V).
Proof. intros x y. unfold item_le. apply total, _. Qed.

Lemma sorted_Permutation {V} (items : list (string * V)) : sorted items ≡ₚ items.
Proof. apply merge_sort_Permutation. Qed.

Lemma sorted_StronglySorted {V} (items : list (string * V)) :
  StronglySorted item_le (sorted items).
Proof. apply StronglySorted_merge_sort; apply _. Qed.

(** A list of items with distinct keys has one ascending arrangement. *)
Lemma sorted_unique {V} (items items' : list (string * V)) :
  NoDup items.*1 → StronglySorted item_le items' → items' ≡ₚ items →
  sorted items = items'.
Proof.
  intros Hnd Hst Hp. apply (StronglySorted_unique_strong item_le).
  - intros [n1 d1] [n2 d2] H1 H2 Hle1 Hle2.
    unfold item_le in *; simpl in *.
    assert (n1 = n2) as -> by (by apply (anti_symm String.le)).
    f_equal. rewrite sorted_Permutation in H1. rewrite Hp in H2.
    apply list_elem_of_lookup in H1 as [i Hi], H2 as [j Hj].
    assert (i = j) as ->.
    { eapply NoDup_lookup; [exact Hnd| |]; rewrite list_lookup_fmap.
      - by rewrite Hi. - by rewrite Hj. }
    congruence.
  - apply sorted_StronglySorted.
  - done.
  - by rewrite sorted_Permutation.
Qed.

(** The sorted list does not depend on the order in which the dict
    enumerates its items. *)
Lemma sorted_enumeration {V} (items1 items2 : list (string * V)) :
  NoDup items1.*1 → items1 ≡ₚ items2 → sorted items1 = sorted items2.
Proof.
  intros Hnd Hp. apply sorted_unique; [done|apply sorted_StronglySorted|].
  by rewrite sorted_Permutation.
Qed.

(** Sorting looks at the keys only. *)
Lemma sorted_fmap {V W} (f : V → W) (items : list (string * V)) :
  NoDup items.*1 →
  sorted (prod_map id f <$> items) = prod_map id f <$> sorted items.
Proof.
  intros Hnd. apply sorted_unique.
  - rewrite <-list_fmap_compose.
    by rewrite (list_fmap_ext _ fst items) by (by intros []).
  - eapply StronglySorted_fmap; [|apply sorted_StronglySorted].
    by intros [] [].
  - by rewrite sorted_Permutation.
Qed.

Lemma sorted_map_to_list_elem_of (g : dep_graph_t) n deps :
  (n, deps) ∈ sorted (map_to_list g) ↔ g !! n = Some deps.
Proof. by rewrite sorted_Permutation, elem_of_map_to_list. Qed.

Lemma sorted_map_to_list_NoDup (g : dep_graph_t) :
  NoDup (sorted (map_to_list g)).*1.
Proof. rewrite sorted_Permutation. apply NoDup_fst_map_to_list. Qed.

(** ** One scan of the items *)

Lemma for_items_emits items st :
  NoDup items.*1 →
  (∀ n deps, (n, deps) ∈ items → graph st !! n = Some deps) →
  ∃ ns g',
    for_items items st
    = inr {| graph := g'; sorted_nodes := sorted_nodes st ++ ns;
             cyclic := if ns is [] then cyclic st else false |} ∧
    emits (graph st) ns g' ∧
    ns `sublist_of` items.*1 ∧
    (∀ n deps, (n, deps) ∈ items →
       for_dependencies (graph st) deps = true → n ∈ ns).
Proof.
  revert st. induction items as [|[n deps] items IH]; intros st Hnd Hit.
  - exists [], (graph st). simpl. rewrite app_nil_r. destruct st.
    split_and!; [done|constructor|done|].
    intros ?? Hin. by apply elem_of_nil in Hin.
  - simpl in Hnd. apply NoDup_cons in Hnd as [Hn Hnd].
    assert (graph st !! n = Some deps) as Hgn by (apply Hit; left).
    simpl. destruct (for_dependencies (graph st) deps) eqn:Hfd.
    + unfold del_item. rewrite Hgn.
      set (st1 := {| graph := delete n (graph st);
                     sorted_nodes := sorted_nodes st ++ [n];
                     cyclic := false |}).
      destruct (IH st1 Hnd) as (ns & g' & Hrun & Hem & Hsub & Hel).
      { intros m dm Hin. simpl. rewrite lookup_delete_ne.
        - apply Hit. by right.
        - intros ->. apply Hn. apply list_elem_of_fmap. by exists (m, dm). }
      exists (n :: ns), g'. rewrite Hrun. simpl. rewrite <-app_assoc. simpl.
      split_and!.
      * by destruct ns.
      * eapply emits_cons; [done| |done]. by apply for_dependencies_true.
      * by apply sublist_skip.
      * intros m dm Hin Hm. apply elem_of_cons in Hin as [[= -> ->]|Hin]; [left|].
        right. apply (Hel m dm Hin). simpl.
        apply for_dependencies_true. intros p Hp.
        rewrite lookup_delete_None. right.
        by apply (proj1 (for_dependencies_true _ _) Hm).
    + destruct (IH st Hnd) as (ns & g' & Hrun & Hem & Hsub & Hel).
      { intros m dm Hin. apply Hit. by right. }
      exists ns, g'. split_and!; [done|done|by apply sublist_cons|].
      intros m dm Hin Hm. apply elem_of_cons in Hin as [[= -> ->]|Hin].
      * congruence.
      * by apply (Hel m dm).
Qed.

(** One round of the [while] loop on the canonical enumeration. *)
Lemma while_body_emits st :
  ∃ ns g',
    while_body map_to_list st
    = inr {| graph := g'; sorted_nodes := sorted_nodes st ++ ns;
             cyclic := if ns is [] then true else false |} ∧
    emits (graph st) ns g' ∧
    ns `sublist_of` (sorted (map_to_list (graph st))).*1 ∧
    (∀ n deps, graph st !! n = Some deps →
       for_dependencies (graph st) deps = true → n ∈ ns).
Proof.
  unfold while_body.
  destruct (for_items_emits (sorted (map_to_list (graph st)))
    {| graph := graph st; sorted_nodes := sorted_nodes st; cyclic := true |})
    as (ns & g' & Hrun & Hem & Hsub & Hel).
  - apply sorted_map_to_list_NoDup.
  - intros n deps. apply sorted_map_to_list_elem_of.
  - exists ns, g'. split_and!; [done|done|done|].
    intros n deps Hn. apply Hel. by apply sorted_map_to_list_elem_of.
Qed.

(** A scan that takes out no node leaves a graph all of whose nodes wait
    for another node of the graph. *)
Lemma while_body_blocked st g' :
  while_body map_to_list st
  = inr {| graph := g'; sorted_nodes := sorted_nodes st; cyclic := true |} →
  g' = graph st ∧ blocked (graph st).
Proof.
  intros Hrun. destruct (while_body_emits st) as (ns & g1 & Hrun' & Hem & _ & Hel).
  rewrite Hrun' in Hrun. destruct ns as [|n ns]; [|done].
  injection Hrun as ->. inv Hem. split; [done|].
  intros n deps Hn. apply for_dependencies_false.
  destruct (for_dependencies (graph st) deps) eqn:Hfd; [|done].
  specialize (Hel n deps Hn Hfd). by apply elem_of_nil in Hel.
Qed.

(** ** The whole loop *)

Lemma while_graph_emits fuel st :
  size (graph st) ≤ fuel →
  ∃ ns r, emits (graph st) ns r ∧
    ((r = ∅ ∧
      while_graph map_to_list fuel st = Some (Return (sorted_nodes st ++ ns))) ∨
     (r ≠ ∅ ∧ blocked r ∧
      while_graph map_to_list fuel st
      = Some (Raise (CyclicDependenciesError r)))).
Proof.
  revert st. induction fuel as [|fuel IH]; intros st Hsz.
  - exists [], (graph st). split; [constructor|]. left.
    assert (graph st = ∅) as He by (apply map_size_empty_iff; lia).
    split; [done|]. simpl. rewrite decide_True by done. by rewrite app_nil_r.
  - simpl. destruct (decide (graph st = ∅)) as [He|Hne].
    { exists [], (graph st). split; [constructor|]. left.
      by rewrite app_nil_r. }
    destruct (while_body_emits st) as (ns & g' & Hrun & Hem & _ & Hel).
    rewrite Hrun. destruct ns as [|n ns]; simpl.
    + exists [], (graph st). split; [constructor|]. right.
      rewrite app_nil_r in Hrun. apply while_body_blocked in Hrun as [-> Hb].
      done.
    + set (st' := {| graph := g'; sorted_nodes := sorted_nodes st ++ n :: ns;
                     cyclic := false |}).
      destruct (IH st') as (ns' & r & Hem' & Hres).
      { apply emits_size in Hem. simpl in *. lia. }
      exists ((n :: ns) ++ ns'), r. split; [by eapply emits_app|].
      simpl in Hres. rewrite <-app_assoc in Hres. exact Hres.
Qed.

(** What every call does: it takes out an elimination sequence, and
    either empties the graph and returns the sequence, or stops at a
    non-empty blocked remainder and raises with it. *)
Lemma topological_sorting_run g :
  ∃ ns r, emits g ns r ∧
    ((r = ∅ ∧ topological_sorting g = Some (Return ns)) ∨
     (r ≠ ∅ ∧ blocked r ∧
      topological_sorting g = Some (Raise (CyclicDependenciesError r)))).
Proof.
  unfold topological_sorting, topological_sorting_with.
  destruct (while_graph_emits (size g)
    {| graph := g; sorted_nodes := []; cyclic := true |}) as (ns & r & H & Hres);
    [done|].
  exists ns, r. split; [done|]. exact Hres.
Qed.

(** ** Cycles *)

Lemma edge_subseteq (r g : dep_graph_t) n p : r ⊆ g → edge r n p → edge g n p.
Proof.
  intros Hsub (deps & Hn & Hp & [dp Hsp]). exists deps. split_and!; [|done|].
  - by eapply lookup_weaken.
  - exists dp. by eapply lookup_weaken.
Qed.

Lemma has_cycle_subseteq (r g : dep_graph_t) : r ⊆ g → has_cycle r → has_cycle g.
Proof.
  intros Hsub [n Hn]. exists n.
  eapply (tc_congruence id); [|exact Hn].
  intros x y. by apply edge_subseteq.
Qed.

Lemma list_length_le_size (r : dep_graph_t) (l : list string) :
  NoDup l → (∀ v, v ∈ l → is_Some (r !! v)) → length l ≤ size r.
Proof.
  intros Hnd Hin. rewrite <-size_dom.
  rewrite <-(size_list_to_set (C := gset string) l) by done.
  apply subseteq_size. intros v Hv. apply elem_of_list_to_set in Hv.
  apply elem_of_dom. auto.
Qed.

(** Walking from prerequisite to prerequisite inside a blocked graph
    must come back to a node already visited. *)
Lemma blocked_walk (r : dep_graph_t) :
  blocked r →
  ∀ k visited x,
    NoDup visited →
    (∀ v, v ∈ visited → is_Some (r !! v) ∧ rtc (edge r) v x) →
    x ∈ visited →
    size r < length visited + k →
    has_cycle r.
Proof.
  intros Hb. induction k as [|k IH]; intros visited x Hnd Hv Hx Hsz.
  - assert (length visited ≤ size r); [|lia].
    apply list_length_le_size; [done|]. intros v Hin. by apply Hv.
  - destruct (Hv x Hx) as [[dx Hgx] _].
    destruct (Hb x dx Hgx) as (p & Hp & Hsp).
    assert (edge r x p) as Hedge by (by exists dx).
    destruct (decide (p ∈ visited)) as [Hin|Hnin].
    + exists p. apply tc_rtc_l with x.
      * by apply Hv.
      * by apply tc_once.
    + apply (IH (p :: visited) p).
      * by constructor.
      * intros v Hin. apply elem_of_cons in Hin as [->|Hin]; [done|].
        split; [by apply Hv|]. eapply rtc_r; [by apply Hv|done].
      * left.
      * simpl. lia.
Qed.

Lemma blocked_has_cycle (r : dep_graph_t) : blocked r → r ≠ ∅ → has_cycle r.
Proof.
  intros Hb Hne. apply map_choose in Hne as (x & dx & Hx).
  apply (blocked_walk r Hb (S (size r)) [x] x).
  - apply NoDup_singleton.
  - intros v Hv. apply list_elem_of_singleton in Hv as ->. split; [by eexists|done].
  - left.
  - simpl. lia.
Qed.

(** The nodes of a cycle are never taken out. *)
Lemma emits_cycle g l g' n :
  emits g l g' → tc (edge g) n n → is_Some (g' !! n).
Proof.
  intros He Hc.
  pose (P := λ m : string, tc (edge g) n m ∧ tc (edge g) m n).
  assert (n ∉ l) as Hnl.
  { apply (emits_stuck P g l g' He); [|done].
    intros m [Hnm Hmn].
    assert (∃ p, edge g m p ∧ (p = n ∨ tc (edge g) p n)) as (p & Hmp & Hpn).
    { inv Hmn; eauto. }
    pose proof Hmp as (dm & Hgm & Hp & _). exists dm, p. split_and!; [done..|].
    split.
    - eapply tc_r; done.
    - destruct Hpn as [->|?]; [|done]. by etrans. }
  rewrite (emits_lookup _ _ _ n He), decide_False by done.
  inv Hc; match goal with H : edge _ n _ |- _ => destruct H as (d & -> & _) end;
    by eexists.
Qed.

Lemma tc_edge_earlier g l n m :
  is_topological_order g l → tc (edge g) n m → earlier l m n.
Proof.
  intros (Hnd & _ & Hord). induction 1 as [n m Hnm|n y m Hny _ IH].
  - by apply Hord.
  - destruct (Hord n y Hny) as (i1 & j1 & Hi1 & Hj1 & Hlt1).
    destruct IH as (i2 & j2 & Hi2 & Hj2 & Hlt2).
    assert (j2 = i1) as -> by (by eapply NoDup_lookup).
    exists i2, j1. split_and!; [done|done|lia].
Qed.

Lemma topological_order_acyclic g l : is_topological_order g l → acyclic g.
Proof.
  intros Hl n Hc. destruct (tc_edge_earlier g l n n Hl Hc) as (i & j & Hi & Hj & Hlt).
  destruct Hl as (Hnd & _). assert (i = j) by (by eapply NoDup_lookup). lia.
Qed.

(** The three possible results, and what decides between them. *)
Lemma topological_sorting_Return g l :
  topological_sorting g = Some (Return l) → emits g l ∅.
Proof.
  intros Hrun. destruct (topological_sorting_run g) as (ns & r & Hem & [[-> H]|(_ & _ & H)]);
    rewrite H in Hrun; [|done]. by injection Hrun as <-.
Qed.

Lemma topological_sorting_Raise g e :
  topological_sorting g = Some (Raise e) →
  ∃ ns r, e = CyclicDependenciesError r ∧ emits g ns r ∧ r ≠ ∅ ∧ blocked r.
Proof.
  intros Hrun. destruct (topological_sorting_run g) as (ns & r & Hem & [[-> H]|(? & ? & H)]);
    rewrite H in Hrun; [done|]. injection Hrun as <-. by exists ns, r.
Qed.

Lemma topological_sorting_total g :
  (∃ l, topological_sorting g = Some (Return l)) ∨
  (∃ r, topological_sorting g = Some (Raise (CyclicDependenciesError r))).
Proof.
  destruct (topological_sorting_run g) as (ns & r & Hem & [[-> H]|(? & ? & H)]); eauto.
Qed.

Lemma Raise_has_cycle g e :
  topological_sorting g = Some (Raise e) → has_cycle g.
Proof.
  intros (ns & r & -> & Hem & Hne & Hb)%topological_sorting_Raise.
  apply has_cycle_subseteq with r; [by eapply emits_subseteq|].
  by apply blocked_has_cycle.
Qed.

Lemma Return_acyclic g l :
  topological_sorting g = Some (Return l) → acyclic g.
Proof.
  intros He%topological_sorting_Return.
  by eapply topological_order_acyclic, emits_topological_order.
Qed.

(** ** Scans as a function of the remaining graph *)

Lemma for_items_sorted_nodes items st out :
  for_items items
    {| graph := graph st; sorted_nodes := out ++ sorted_nodes st;
       cyclic := cyclic st |}
  = match for_items items st with
    | inr st' =>
        inr {| graph := graph st'; sorted_nodes := out ++ sorted_nodes st';
               cyclic := cyclic st' |}
    | inl e => inl e
    end.
Proof.
  revert st. induction items as [|[n deps] items IH]; intros st; [done|].
  simpl. destruct (for_dependencies (graph st) deps); [|apply IH].
  destruct (del_item (graph st) n) as [e|g1]; [done|].
  rewrite <-app_assoc.
  apply (IH {| graph := g1; sorted_nodes := sorted_nodes st ++ [n];
               cyclic := false |}).
Qed.

Lemma emits_nil_iff g ns g' : emits g ns g' → ns = [] ↔ g' = g.
Proof.
  intros He. split.
  - intros ->. by inv He.
  - intros ->. apply emits_size in He. destruct ns; [done|simpl in He; lia].
Qed.

Lemma while_body_scan st :
  ∃ ns,
    while_body map_to_list st
    = inr {| graph := scan (graph st); sorted_nodes := sorted_nodes st ++ ns;
             cyclic := bool_decide (scan (graph st) = graph st) |} ∧
    emits (graph st) ns (scan (graph st)) ∧
    (ns = [] ↔ scan (graph st) = graph st).
Proof.
  destruct (while_body_emits (initial (graph st)))
    as (ns & g' & Hrun & Hem & _ & _).
  assert (scan (graph st) = g') as Hscan.
  { unfold scan. fold (initial (graph st)). by rewrite Hrun. }
  simpl in Hem. pose proof (emits_nil_iff _ _ _ Hem) as Hnil.
  exists ns. rewrite Hscan. split_and!; [|done|done].
  unfold while_body in *. simpl in Hrun.
  pose proof (for_items_sorted_nodes (sorted (map_to_list (graph st)))
    (initial (graph st)) (sorted_nodes st)) as Hfr.
  simpl in Hfr. rewrite app_nil_r in Hfr. rewrite Hfr.
  unfold initial. rewrite Hrun. do 2 f_equal.
  destruct ns as [|n ns].
  - rewrite bool_decide_eq_true_2; [done|]. by apply Hnil.
  - rewrite bool_decide_eq_false_2; [done|]. intros Heq. by apply Hnil in Heq.
Qed.

Lemma scan_size g : scan g = g ∨ size (scan g) < size g.
Proof.
  destruct (while_body_scan (initial g)) as (ns & _ & Hem & Hnil). simpl in *.
  destruct ns as [|n ns]; [left; by apply Hnil|right].
  apply emits_size in Hem. simpl in Hem. lia.
Qed.

Lemma iter_scan_fixed k g : scan g = g → Nat.iter k scan g = g.
Proof. intros Hg. induction k as [|k IH]; simpl; [done|]. by rewrite IH. Qed.

Lemma iter_scan_succ k g : Nat.iter (S k) scan g = Nat.iter k scan (scan g).
Proof. induction k as [|k IH]; [done|]. simpl in *. by rewrite IH. Qed.

(** The loop raises exactly when, after some number of scans, it is at a
    non-empty graph from which a full scan takes out no node. *)
Lemma while_graph_Raise_iff fuel st e :
  size (graph st) ≤ fuel →
  while_graph map_to_list fuel st = Some (Raise e) ↔
  ∃ k, Nat.iter k scan (graph st) ≠ ∅ ∧
       scan (Nat.iter k scan (graph st)) = Nat.iter k scan (graph st) ∧
       e = CyclicDependenciesError (Nat.iter k scan (graph st)).
Proof.
  revert st. induction fuel as [|fuel IH]; intros st Hsz.
  - assert (graph st = ∅) as He by (apply map_size_empty_iff; lia).
    simpl. rewrite decide_True by done. split; [done|].
    intros (k & Hne & _). rewrite He, iter_scan_fixed in Hne; done.
  - simpl. destruct (decide (graph st = ∅)) as [He|Hne].
    { split; [done|]. intros (k & Hk & _).
      rewrite He, iter_scan_fixed in Hk; done. }
    destruct (while_body_scan st) as (ns & -> & Hem & Hnil). simpl.
    case_bool_decide as Hfix.
    + split.
      * intros [= <-]. exists 0. simpl. by rewrite Hfix.
      * intros (k & _ & _ & ->). rewrite iter_scan_fixed by done.
        by rewrite Hfix.
    + set (st' := {| graph := scan (graph st);
                     sorted_nodes := sorted_nodes st ++ ns;
                     cyclic := false |}).
      assert (size (graph st') ≤ fuel) as Hsz'.
      { simpl. destruct (scan_size (graph st)); [done|lia]. }
      rewrite (IH st' Hsz'). simpl. split.
      * intros (k & Hk). exists (S k). by rewrite iter_scan_succ.
      * intros ([|k] & Hk1 & Hk2 & Hk3); [done|].
        exists k. by rewrite <-iter_scan_succ.
Qed.

Lemma while_graph_fuel fuel1 fuel2 st :
  size (graph st) ≤ fuel1 → size (graph st) ≤ fuel2 →
  while_graph map_to_list fuel1 st = while_graph map_to_list fuel2 st.
Proof.
  revert fuel2 st. induction fuel1 as [|fuel1 IH]; intros fuel2 st H1 H2.
  - assert (graph st = ∅) as He by (apply map_size_empty_iff; lia).
    destruct fuel2; simpl; by rewrite !decide_True.
  - simpl. destruct (decide (graph st = ∅)) as [He|Hne].
    { destruct fuel2; simpl; by rewrite decide_True. }
    destruct fuel2 as [|fuel2].
    { exfalso. apply Hne, map_size_empty_iff. lia. }
    simpl. rewrite decide_False by done.
    destruct (while_body_scan st) as (ns & -> & _ & _). simpl.
    case_bool_decide as Hfix; [done|].
    apply IH; simpl; destruct (scan_size (graph st)); done || lia.
Qed.

(** ** The returned order and the raised remainder *)

(** C1 (amended): when [topological_sorting] returns a sequence, every
    declared prerequisite of a node that is itself a key of the graph
    stands at a strictly earlier position of the sequence than the
    node. *)
Theorem C1_prerequisites_first g l n deps p :
  topological_sorting g = Some (Return l) →
  g !! n = Some deps → p ∈ deps → is_Some (g !! p) →
  earlier l p n.
Proof.
  intros Hrun%topological_sorting_Return Hn Hp Hsp.
  apply emits_topological_order in Hrun as (_ & _ & Hord).
  apply Hord. by exists deps.
Qed.

Lemma C1_prerequisites_first_witness :
  earlier ["A"; "B"; "C"; "D"] "B" "D".
Proof.
  apply (C1_prerequisites_first diamond ["A"; "B"; "C"; "D"] "D" ["B"; "C"] "B").
  - vm_compute. reflexivity.
  - vm_compute. reflexivity.
  - left.
  - exists ["A"]. vm_compute. reflexivity.
Defined.

(** C1, as stated, fails: the prerequisite ["X"] of ["A"] is not a key,
    the call returns [["A"]], and ["X"] stands nowhere in it. *)
Lemma C1_counterexample :
  topological_sorting missing_prerequisite = Some (Return ["A"]) ∧
  missing_prerequisite !! "A" = Some ["X"] ∧
  "X" ∈ ["X"] ∧
  ¬ earlier ["A"] "X" "A".
Proof.
  split_and!; [by vm_compute|by vm_compute|left|].
  intros (i & j & Hi & Hj & Hlt).
  destruct i as [|i]; simpl in Hi; [congruence|].
  by rewrite lookup_nil in Hi.
Qed.

(** C2: on an acyclic graph the call returns a sequence, and every key
    of the input stands at exactly one position of it. *)
Theorem C2_every_key_exactly_once g :
  acyclic g →
  ∃ l, topological_sorting g = Some (Return l) ∧
       ∀ k, is_Some (g !! k) →
            ∃ i, l !! i = Some k ∧ ∀ j, l !! j = Some k → j = i.
Proof.
  intros Hac. destruct (topological_sorting_total g) as [[l Hl]|[r Hr]].
  - exists l. split; [done|]. intros k Hk.
    apply topological_sorting_Return in Hl.
    pose proof (emits_NoDup _ _ _ Hl) as Hnd.
    apply (emits_all _ _ Hl), list_elem_of_lookup in Hk as [i Hi].
    exists i. split; [done|]. intros j Hj. by eapply NoDup_lookup.
  - apply Raise_has_cycle in Hr as [n Hn]. by destruct (Hac n).
Qed.

Lemma C2_every_key_exactly_once_witness :
  ∃ l, topological_sorting diamond = Some (Return l) ∧
       ∀ k, is_Some (diamond !! k) →
            ∃ i, l !! i = Some k ∧ ∀ j, l !! j = Some k → j = i.
Proof.
  apply (C2_every_key_exactly_once diamond).
  apply (Return_acyclic diamond ["A"; "B"; "C"; "D"]).
  vm_compute. reflexivity.
Defined.

(** C3: the call raises exactly when the graph has a cycle among its
    keys, which is exactly when it has no valid total order; the only
    exception it raises is [CyclicDependenciesError], and it always
    produces a result; and it raises with [r] exactly when, after some
    number of scans, it stands at the non-empty graph [r] and a full scan
    of [r] takes out no node. *)
Theorem C3_raises_iff_cyclic g :
  ((∃ e, topological_sorting g = Some (Raise e)) ↔ has_cycle g) ∧
  (has_cycle g ↔ ¬ ∃ l, is_topological_order g l) ∧
  (∀ e, topological_sorting g = Some (Raise e) →
        ∃ r, e = CyclicDependenciesError r) ∧
  (∃ o, topological_sorting g = Some o) ∧
  (∀ e, topological_sorting g = Some (Raise e) ↔
        ∃ k, Nat.iter k scan g ≠ ∅ ∧
             scan (Nat.iter k scan g) = Nat.iter k scan g ∧
             e = CyclicDependenciesError (Nat.iter k scan g)).
Proof.
  assert (has_cycle g → ∃ e, topological_sorting g = Some (Raise e)) as Hcyc.
  { intros [n Hn]. destruct (topological_sorting_total g) as [[l Hl]|[r Hr]]; [|eauto].
    apply topological_sorting_Return in Hl.
    pose proof (emits_cycle _ _ _ n Hl Hn) as Hs.
    rewrite lookup_empty in Hs. by destruct Hs. }
  split_and!.
  - split; [|done]. intros [e He]. by eapply Raise_has_cycle.
  - split.
    + intros [n Hn] [l Hl]. by apply (topological_order_acyclic g l Hl n).
    + intros Hno. destruct (topological_sorting_total g) as [[l Hl]|[r Hr]].
      * destruct Hno. exists l.
        by apply emits_topological_order, topological_sorting_Return.
      * by eapply Raise_has_cycle.
  - intros e (ns & r & -> & _)%topological_sorting_Raise. by exists r.
  - destruct (topological_sorting_total g) as [[l Hl]|[r Hr]]; eauto.
  - intros e. by apply (while_graph_Raise_iff (size g) (initial g) e).
Qed.

(** A part of [g] in which every node waits for a node of the part
    loses nothing, whichever nodes are taken out of [g]. *)
Lemma blocked_subseteq_emits g l r r' :
  r' ⊆ g → blocked r' → emits g l r → r' ⊆ r.
Proof.
  intros Hsub Hb He. apply map_subseteq_spec. intros n d Hn.
  assert (n ∉ l) as Hnl.
  { apply (emits_stuck (λ m, is_Some (r' !! m)) g l r He); [|by eexists].
    intros m [dm Hm]. destruct (Hb m dm Hm) as (p & Hp & Hsp).
    exists dm, p. split_and!; [|done|done]. by eapply lookup_weaken. }
  rewrite (emits_lookup _ _ _ n He), decide_False by done.
  by eapply lookup_weaken.
Qed.

(** C4 (amended): when the call raises, the exception carries what
    remains of the input mapping after the nodes [ns] that could be
    ordered are taken out one after the other: the nodes that are not
    among [ns], each with the prerequisite list the input gave it. The
    remainder is a non-empty part of the input, every node of it has a
    prerequisite that is a node of it, and it holds every part of the
    input of which that is true: it is the largest such part, so the
    input alone decides it. *)
Theorem C4_remainder g e :
  topological_sorting g = Some (Raise e) →
  ∃ ns r,
    e = CyclicDependenciesError r ∧
    emits g ns r ∧
    (∀ k, r !! k = if decide (k ∈ ns) then None else g !! k) ∧
    r ⊆ g ∧ r ≠ ∅ ∧ blocked r ∧
    (∀ r', r' ⊆ g → blocked r' → r' ⊆ r).
Proof.
  intros (ns & r & -> & Hem & Hne & Hb)%topological_sorting_Raise.
  exists ns, r. split_and!; [done|done| | |done|done|].
  - intros k. by apply emits_lookup.
  - by eapply emits_subseteq.
  - intros r' Hsub Hb'. by eapply blocked_subseteq_emits.
Qed.

Lemma C4_remainder_witness :
  ∃ ns r,
    CyclicDependenciesError {[ "B" := ["C"]; "C" := ["B"] ]}
    = CyclicDependenciesError r ∧
    emits partial_cycle ns r ∧
    (∀ k, r !! k = if decide (k ∈ ns) then None else partial_cycle !! k) ∧
    r ⊆ partial_cycle ∧ r ≠ ∅ ∧ blocked r ∧
    (∀ r', r' ⊆ partial_cycle → blocked r' → r' ⊆ r).
Proof.
  apply (C4_remainder partial_cycle). vm_compute. reflexivity.
Defined.

(** C4, as stated, fails: on a cycle that spans the whole graph the
    remainder has all the keys of the input, so it is not a proper
    subset, and it lists for ["A"] the prerequisite ["X"], which is not
    a node of the remainder and so not an unsatisfied prerequisite. *)
Lemma C4_counterexample :
  topological_sorting cycle_with_missing
  = Some (Raise (CyclicDependenciesError cycle_with_missing)) ∧
  ¬ (dom cycle_with_missing ⊂ dom cycle_with_missing) ∧
  cycle_with_missing !! "A" = Some ["B"; "X"] ∧
  cycle_with_missing !! "X" = None.
Proof.
  split_and!; [by vm_compute| |by vm_compute|by vm_compute].
  intros [_ Hn]. by apply Hn.
Qed.

(** C7: the call always produces a result, the same for every amount
    of fuel from the number of keys on; and each round of the loop either
    takes out a node, so that fewer remain, or leaves the graph as it was
    with [cyclic] set, and then the loop raises. *)
Theorem C7_terminates g :
  (∃ o, topological_sorting g = Some o) ∧
  (∀ extra, while_graph map_to_list (size g + extra) (initial g)
            = topological_sorting g) ∧
  (∀ st, ∃ st', while_body map_to_list st = inr st' ∧
     ((cyclic st' = true ∧ graph st' = graph st ∧
       ∀ fuel, graph st ≠ ∅ →
         while_graph map_to_list (S fuel) st
         = Some (Raise (CyclicDependenciesError (graph st)))) ∨
      (cyclic st' = false ∧ size (graph st') < size (graph st)))).
Proof.
  split_and!.
  - destruct (topological_sorting_total g) as [[l Hl]|[r Hr]]; eauto.
  - intros extra. apply while_graph_fuel; simpl; lia.
  - intros st. destruct (while_body_scan st) as (ns & Hrun & _ & _).
    eexists. split; [done|]. simpl. case_bool_decide as Hfix; [left|right].
    + split_and!; [done..|]. intros fuel Hne. simpl.
      rewrite decide_False by done. rewrite Hrun. simpl. by rewrite Hfix.
    + split; [done|]. by destruct (scan_size (graph st)).
Qed.

(** C10: every element of a returned sequence is a key of the input;
    in particular a declared prerequisite that is not a key is not in
    it. *)
Theorem C10_only_keys g l k :
  topological_sorting g = Some (Return l) → k ∈ l → is_Some (g !! k).
Proof.
  intros Hrun%topological_sorting_Return Hk. by eapply emits_elem_of.
Qed.

Lemma C10_only_keys_witness : is_Some (diamond !! "C").
Proof.
  apply (C10_only_keys diamond ["A"; "B"; "C"; "D"] "C").
  - vm_compute. reflexivity.
  - do 2 right. left.
Defined.

(** ** Prerequisites that are not keys *)

Section known.
Variable g0 : dep_graph_t.

Lemma in_graph_known (gc : dep_graph_t) p :
  in_graph (known g0 <$> gc) p = in_graph gc p.
Proof.
  unfold in_graph. rewrite lookup_fmap.
  apply bool_decide_ext. by rewrite fmap_is_Some.
Qed.

Lemma for_dependencies_known (gc : dep_graph_t) deps :
  gc ⊆ g0 →
  for_dependencies (known g0 <$> gc) (known g0 deps) = for_dependencies gc deps.
Proof.
  intros Hsub. induction deps as [|p deps IH]; [done|].
  unfold known in *. rewrite filter_cons. simpl. case_decide as Hp; simpl.
  - rewrite in_graph_known. by rewrite IH.
  - rewrite IH. destruct (in_graph gc p) eqn:Hin; [|done].
    apply in_graph_true in Hin as [d Hd]. destruct Hp.
    exists d. by eapply lookup_weaken.
Qed.

Lemma for_items_known items st :
  graph st ⊆ g0 →
  for_items (prod_map id (known g0) <$> items) (known_locals g0 st)
  = match for_items items st with
    | inl e => inl e
    | inr st' => inr (known_locals g0 st')
    end ∧
  ∀ st', for_items items st = inr st' → graph st' ⊆ g0.
Proof.
  revert st. induction items as [|[n deps] items IH]; intros st Hsub.
  - split; [done|]. by intros st' [= <-].
  - simpl. rewrite for_dependencies_known by done.
    destruct (for_dependencies (graph st) deps); [|by apply IH].
    unfold del_item. rewrite lookup_fmap.
    destruct (graph st !! n) as [d|] eqn:Hn; simpl; [|done].
    rewrite <-fmap_delete.
    specialize (IH {| graph := delete n (graph st);
                      sorted_nodes := sorted_nodes st ++ [n];
                      cyclic := false |}).
    apply IH. simpl. etrans; [apply delete_subseteq|done].
Qed.

Lemma sorted_map_to_list_known (gc : dep_graph_t) :
  sorted (map_to_list (known g0 <$> gc))
  = prod_map id (known g0) <$> sorted (map_to_list gc).
Proof.
  rewrite map_to_list_fmap. apply sorted_fmap, NoDup_fst_map_to_list.
Qed.

Lemma while_graph_known fuel st :
  graph st ⊆ g0 →
  while_graph map_to_list fuel (known_locals g0 st)
  = known_outcome g0 <$> while_graph map_to_list fuel st.
Proof.
  revert st. induction fuel as [|fuel IH]; intros st Hsub; simpl.
  - destruct (decide (graph st = ∅)) as [He|Hne].
    + rewrite decide_True; [done|]. by apply fmap_empty_iff.
    + rewrite decide_False; [done|]. by rewrite fmap_empty_iff.
  - destruct (decide (graph st = ∅)) as [He|Hne].
    { rewrite decide_True; [done|]. by apply fmap_empty_iff. }
    rewrite decide_False by (by rewrite fmap_empty_iff).
    unfold while_body. simpl. rewrite sorted_map_to_list_known.
    destruct (for_items_known (sorted (map_to_list (graph st)))
      {| graph := graph st; sorted_nodes := sorted_nodes st; cyclic := true |}
      Hsub) as [Hrun Hsub'].
    unfold known_locals in Hrun at 1. simpl in Hrun. rewrite Hrun.
    destruct (while_body_emits st) as (ns & g' & Hfi & _).
    unfold while_body in Hfi. rewrite Hfi in *. simpl.
    destruct ns; [done|]. apply IH. by apply Hsub'.
Qed.
End known.

(** C8: a node all of whose prerequisites are not keys is taken out by
    the first scan, so it is in every returned sequence and in no
    remainder; and in general the prerequisites that are not keys have
    no effect on the result: the call on the graph without them returns
    the same sequence, or raises with the same remainder without them. *)
Theorem C8_missing_prerequisites g :
  (∀ n deps, g !! n = Some deps → (∀ p, p ∈ deps → g !! p = None) →
     (∃ st', while_body map_to_list (initial g) = inr st' ∧
             n ∈ sorted_nodes st' ∧ graph st' !! n = None) ∧
     (∀ l, topological_sorting g = Some (Return l) → n ∈ l) ∧
     (∀ r, topological_sorting g
           = Some (Raise (CyclicDependenciesError r)) → r !! n = None)) ∧
  topological_sorting (known g <$> g)
  = known_outcome g <$> topological_sorting g.
Proof.
  split.
  - intros n deps Hn Hd. split_and!.
    + destruct (while_body_emits (initial g)) as (ns & g' & Hrun & Hem & _ & Hel).
      eexists. split; [done|]. simpl in *.
      assert (n ∈ ns) as Hin.
      { apply (Hel n deps Hn). by apply for_dependencies_true. }
      split; [done|]. rewrite (emits_lookup _ _ _ n Hem). by rewrite decide_True.
    + intros l Hl%topological_sorting_Return. apply (emits_all _ _ Hl). by eexists.
    + intros r (ns & r' & [= <-] & Hem & _ & Hb)%topological_sorting_Raise.
      destruct (r !! n) as [d|] eqn:Hrn; [|done].
      assert (d = deps) as ->.
      { apply emits_subseteq in Hem.
        pose proof (lookup_weaken _ _ _ _ Hrn Hem). congruence. }
      destruct (Hb n deps Hrn) as (p & Hp & [dp Hsp]).
      apply emits_subseteq in Hem.
      pose proof (lookup_weaken _ _ _ _ Hsp Hem) as Hgp.
      rewrite (Hd p Hp) in Hgp. done.
  - unfold topological_sorting, topological_sorting_with.
    rewrite map_size_fmap.
    apply (while_graph_known g (size g)
      {| graph := g; sorted_nodes := []; cyclic := true |}). done.
Qed.

(** ** The order of enumeration and the order of emission *)

Lemma while_body_enumeration (items : dep_graph_t → list item_t) st :
  (∀ g, items g ≡ₚ map_to_list g) →
  while_body items st = while_body map_to_list st.
Proof.
  intros Hp. unfold while_body. f_equal. apply sorted_enumeration; [|done].
  rewrite (Hp (graph st)). apply NoDup_fst_map_to_list.
Qed.

Lemma while_graph_enumeration (items : dep_graph_t → list item_t) fuel st :
  (∀ g, items g ≡ₚ map_to_list g) →
  while_graph items fuel st = while_graph map_to_list fuel st.
Proof.
  intros Hp. revert st. induction fuel as [|fuel IH]; intros st; [done|].
  simpl. rewrite while_body_enumeration by done.
  destruct (decide (graph st = ∅)); [done|].
  destruct (while_body map_to_list st) as [e|st']; [done|].
  destruct (cyclic st'); [done|apply IH].
Qed.

Lemma StronglySorted_sublist {A} (R : relation A) (l1 l2 : list A) :
  l1 `sublist_of` l2 → StronglySorted R l2 → StronglySorted R l1.
Proof.
  induction 1 as [|x l1 l2 Hsub IH|x l1 l2 Hsub IH]; intros Hs.
  - constructor.
  - apply StronglySorted_cons in Hs as [Hx Hs].
    apply StronglySorted_cons. split; [|by apply IH].
    rewrite Forall_forall in *. intros y Hy. apply Hx.
    by eapply elem_of_sublist.
  - apply StronglySorted_cons in Hs as [_ Hs]. by apply IH.
Qed.

Lemma StronglySorted_before (l : list string) :
  StronglySorted String.le l → NoDup l → StronglySorted before l.
Proof.
  induction 1 as [|x l Hs IH Hx]; intros Hnd; [constructor|].
  apply NoDup_cons in Hnd as [Hxl Hnd]. constructor; [by apply IH|].
  rewrite Forall_forall in *. intros y Hy. split; [by apply Hx|].
  by intros ->.
Qed.

Lemma sorted_keys_before (g : dep_graph_t) :
  StronglySorted before (sorted (map_to_list g)).*1.
Proof.
  apply StronglySorted_before; [|apply sorted_map_to_list_NoDup].
  eapply StronglySorted_fmap; [|apply sorted_StronglySorted]. by intros [] [].
Qed.

Lemma before_earlier (ns : list string) a b :
  StronglySorted before ns → a ∈ ns → b ∈ ns → before a b → earlier ns a b.
Proof.
  induction 1 as [|x l Hs IH Hx]; intros Ha Hb Hab.
  - by apply elem_of_nil in Ha.
  - rewrite Forall_forall in Hx.
    apply elem_of_cons in Ha as [->|Ha], Hb as [->|Hb].
    + by destruct Hab.
    + apply list_elem_of_lookup in Hb as [j Hj].
      exists 0, (S j). split_and!; [done|done|lia].
    + destruct (Hx a Ha) as [Hle Hne], Hab as [Hle' _].
      destruct Hne. by apply (anti_symm String.le).
    + destruct (IH Ha Hb Hab) as (i & j & Hi & Hj & Hlt).
      exists (S i), (S j). split_and!; [done|done|lia].
Qed.

(** C5: the result does not depend on the order in which the dict
    enumerates its items, so two calls on the same graph give the same
    sequence or the same remainder; and in every scan the nodes taken out
    are appended in strictly ascending order of their names, a node that
    is eligible at the start of the scan being among them, so that of two
    such nodes the one with the smaller name comes first. *)
Theorem C5_deterministic (items1 items2 : dep_graph_t → list item_t) g :
  (∀ g', items1 g' ≡ₚ map_to_list g') →
  (∀ g', items2 g' ≡ₚ map_to_list g') →
  topological_sorting_with items1 g = topological_sorting_with items2 g ∧
  ∀ st, ∃ st' ns,
    while_body items1 st = inr st' ∧
    sorted_nodes st' = sorted_nodes st ++ ns ∧
    StronglySorted before ns ∧
    ∀ a b da db,
      graph st !! a = Some da → (∀ p, p ∈ da → graph st !! p = None) →
      graph st !! b = Some db → (∀ p, p ∈ db → graph st !! p = None) →
      before a b → earlier ns a b.
Proof.
  intros H1 H2. split.
  - unfold topological_sorting_with.
    rewrite (while_graph_enumeration items1) by done.
    by rewrite (while_graph_enumeration items2) by done.
  - intros st. rewrite while_body_enumeration by done.
    destruct (while_body_emits st) as (ns & g' & Hrun & _ & Hsub & Hel).
    eexists _, ns. split; [done|]. simpl. split; [done|].
    assert (StronglySorted before ns) as Hs.
    { eapply StronglySorted_sublist; [done|]. apply sorted_keys_before. }
    split; [done|]. intros a b da db Ha Hda Hb Hdb Hab.
    apply before_earlier; [done| | |done].
    + apply (Hel a da Ha). by apply for_dependencies_true.
    + apply (Hel b db Hb). by apply for_dependencies_true.
Qed.

Lemma C5_deterministic_witness :
  topological_sorting_with map_to_list diamond
  = topological_sorting_with (λ g, reverse (map_to_list g)) diamond ∧
  ∀ st, ∃ st' ns,
    while_body map_to_list st = inr st' ∧
    sorted_nodes st' = sorted_nodes st ++ ns ∧
    StronglySorted before ns ∧
    ∀ a b da db,
      graph st !! a = Some da → (∀ p, p ∈ da → graph st !! p = None) →
      graph st !! b = Some db → (∀ p, p ∈ db → graph st !! p = None) →
      before a b → earlier ns a b.
Proof.
  apply (C5_deterministic map_to_list (λ g, reverse (map_to_list g)) diamond).
  - intros g'. reflexivity.
  - intros g'. apply reverse_Permutation.
Defined.

(** ** The double-buffered variant *)

Lemma eligible_true (g : dep_graph_t) n deps :
  eligible g (n, deps) = true ↔ ∀ p, p ∈ deps → g !! p = None.
Proof.
  unfold eligible. simpl. rewrite <-for_dependencies_true.
  induction deps as [|p deps IH]; simpl; [done|].
  destruct (in_graph g p); simpl; [done|apply IH].
Qed.

Lemma remove_all_emits (its : list item_t) (g : dep_graph_t) :
  NoDup its.*1 →
  (∀ n deps, (n, deps) ∈ its →
     g !! n = Some deps ∧ ∀ p, p ∈ deps → g !! p = None) →
  emits g its.*1 (remove_all its.*1 g).
Proof.
  revert g. induction its as [|[n deps] its IH]; intros g Hnd Hit.
  - constructor.
  - simpl in *. apply NoDup_cons in Hnd as [Hn Hnd].
    destruct (Hit n deps) as [Hgn Hd]; [left|].
    eapply emits_cons; [done|done|]. apply IH; [done|].
    intros m dm Hin. destruct (Hit m dm) as [Hgm Hdm]; [by right|].
    split.
    + rewrite lookup_delete_ne; [done|]. intros ->. apply Hn.
      apply list_elem_of_fmap. by exists (m, dm).
    + intros p Hp. rewrite lookup_delete_None. right. by apply Hdm.
Qed.

Lemma eligible_this_pass_emits (g : dep_graph_t) :
  emits g (eligible_this_pass g) (remove_all (eligible_this_pass g) g).
Proof.
  unfold eligible_this_pass. apply remove_all_emits.
  - eapply sublist_NoDup; [apply sorted_map_to_list_NoDup|].
    apply fmap_sublist, sublist_filter.
  - intros n deps [Hel Hin]%list_elem_of_filter.
    apply sorted_map_to_list_elem_of in Hin. split; [done|].
    exact (proj1 (eligible_true g n deps) Hel).
Qed.

Lemma eligible_this_pass_nil (g : dep_graph_t) :
  eligible_this_pass g = [] → blocked g.
Proof.
  unfold eligible_this_pass. intros Hnil n deps Hn.
  apply fmap_nil_inv in Hnil.
  apply for_dependencies_false.
  destruct (for_dependencies g deps) eqn:Hfd; [|done].
  assert ((n, deps) ∈ filter (λ item, eligible g item = true)
            (sorted (map_to_list g))) as Hin.
  { apply list_elem_of_filter. split.
    - apply eligible_true. by apply for_dependencies_true.
    - by apply sorted_map_to_list_elem_of. }
  rewrite Hnil in Hin. by apply elem_of_nil in Hin.
Qed.

Lemma double_buffered_loop_emits fuel g out :
  size g ≤ fuel →
  ∃ ns r, emits g ns r ∧
    ((r = ∅ ∧ double_buffered_loop fuel g out = Some (Return (out ++ ns))) ∨
     (r ≠ ∅ ∧ blocked r ∧
      double_buffered_loop fuel g out
      = Some (Raise (CyclicDependenciesError r)))).
Proof.
  revert g out. induction fuel as [|fuel IH]; intros g out Hsz.
  - assert (g = ∅) as -> by (apply map_size_empty_iff; lia).
    exists [], ∅. split; [constructor|]. left. by rewrite app_nil_r.
  - simpl. destruct (decide (g = ∅)) as [->|Hne].
    { exists [], ∅. split; [constructor|]. left. by rewrite app_nil_r. }
    pose proof (eligible_this_pass_emits g) as Hem.
    destruct (decide (eligible_this_pass g = [])) as [Hnil|Hcons].
    + exists [], g. split; [constructor|]. right.
      split_and!; [done|by apply eligible_this_pass_nil|done].
    + destruct (IH (remove_all (eligible_this_pass g) g)
        (out ++ eligible_this_pass g)) as (ns & r & Hem' & Hres).
      { apply emits_size in Hem.
        assert (length (eligible_this_pass g) ≠ 0); [|lia].
        by destruct (eligible_this_pass g). }
      exists (eligible_this_pass g ++ ns), r.
      split; [by eapply emits_app|]. by rewrite app_assoc.
Qed.

(** Two elimination sequences that both stop at a blocked remainder stop
    at the same remainder. *)
Lemma emits_blocked_subseteq g l1 r1 l2 r2 :
  emits g l1 r1 → blocked r1 → emits g l2 r2 → r1 ⊆ r2.
Proof.
  intros He1 Hb1 He2. apply map_subseteq_spec. intros n d Hn.
  pose proof (emits_subseteq _ _ _ He1) as Hsub.
  assert (n ∉ l2) as Hnl.
  { apply (emits_stuck (λ m, is_Some (r1 !! m)) g l2 r2 He2); [|by eexists].
    intros m [dm Hm]. destruct (Hb1 m dm Hm) as (p & Hp & Hsp).
    exists dm, p. split_and!; [|done|done]. by eapply lookup_weaken. }
  rewrite (emits_lookup _ _ _ n He2), decide_False by done.
  by eapply lookup_weaken.
Qed.

Lemma emits_blocked_unique g l1 r1 l2 r2 :
  emits g l1 r1 → blocked r1 → emits g l2 r2 → blocked r2 → r1 = r2.
Proof.
  intros. apply (anti_symm (⊆)); by eapply emits_blocked_subseteq.
Qed.

Lemma blocked_empty : blocked ∅.
Proof. intros n deps Hn. by rewrite lookup_empty in Hn. Qed.

Lemma emits_Permutation g l1 l2 : emits g l1 ∅ → emits g l2 ∅ → l1 ≡ₚ l2.
Proof.
  intros H1 H2. apply NoDup_Permutation.
  - by eapply emits_NoDup.
  - by eapply emits_NoDup.
  - intros k. by rewrite (emits_all _ _ H1), (emits_all _ _ H2).
Qed.

(** C9 (amended): the double-buffered variant fails on the same graphs
    as [topological_sorting] and with the same remainder, and where they
    return, both return a valid order of the same keys; the two sequences
    are permutations of one another. *)
Theorem C9_double_buffered g :
  (∀ e, topological_sorting g = Some (Raise e) ↔
        double_buffered_sorting g = Some (Raise e)) ∧
  (∀ l, topological_sorting g = Some (Return l) →
        ∃ l', double_buffered_sorting g = Some (Return l') ∧ l ≡ₚ l' ∧
              is_topological_order g l ∧ is_topological_order g l') ∧
  (∀ l', double_buffered_sorting g = Some (Return l') →
         ∃ l, topological_sorting g = Some (Return l) ∧ l ≡ₚ l').
Proof.
  destruct (topological_sorting_run g) as (ns1 & r1 & Hem1 & Hres1).
  destruct (double_buffered_loop_emits (size g) g []) as (ns2 & r2 & Hem2 & Hres2);
    [done|].
  fold (double_buffered_sorting g) in Hres2. simpl in Hres2.
  assert (blocked r1) as Hb1.
  { destruct Hres1 as [[-> _]|(_ & ? & _)]; [apply blocked_empty|done]. }
  assert (blocked r2) as Hb2.
  { destruct Hres2 as [[-> _]|(_ & ? & _)]; [apply blocked_empty|done]. }
  assert (r1 = r2) as <- by (by eapply emits_blocked_unique).
  destruct Hres1 as [[-> Hr1]|(Hne & _ & Hr1)],
    Hres2 as [[? Hr2]|(? & _ & Hr2)]; try done; rewrite Hr1, Hr2.
  - split_and!.
    + done.
    + intros l [= <-]. exists ns2.
      split_and!; [done|by eapply emits_Permutation|
        by apply emits_topological_order..].
    + intros l' [= <-]. exists ns1. split; [done|]. by eapply emits_Permutation.
  - split_and!; done.
Qed.

(** C9, as stated, fails: the function takes ["B"] out in the scan that
    took out its prerequisite ["A"], before it reaches ["C"]; the
    double-buffered variant finds ["A"] and ["C"] eligible in the first
    pass and ["B"] only in the second. *)
Lemma C9_counterexample :
  topological_sorting late_independent = Some (Return ["A"; "B"; "C"]) ∧
  double_buffered_sorting late_independent = Some (Return ["A"; "C"; "B"]).
Proof. split; by vm_compute. Qed.

Example heap_run :
  ∃ h' s, Heap.topological_sorting 1%positive Heap.sample_heap = Some (h', inr s) ∧
          h' !! s = Some (Heap.List ["A"; "B"]) ∧
          h' !! 1%positive = Heap.sample_heap !! 1%positive.
Proof. eexists _, _. vm_compute. split_and!; reflexivity. Qed.

(** ** The function on the heap *)

Lemma heap_view_lookup (h : Heap.heap) d k :
  Heap.view h d !! k = Heap.deref h <$> d !! k.
Proof. unfold Heap.view. by rewrite lookup_fmap. Qed.

Lemma heap_deref_agree (h h' : Heap.heap) v :
  h' !! v = h !! v → Heap.deref h' v = Heap.deref h v.
Proof. unfold Heap.deref. by intros ->. Qed.

Lemma heap_for_dependencies_sim (h : Heap.heap) gref d deps :
  h !! gref = Some (Heap.Dict d) →
  Heap.for_dependencies gref deps h
  = Some (h, inr (for_dependencies (Heap.view h d) deps)).
Proof.
  intros Hg. induction deps as [|p deps IH]; [done|].
  simpl. unfold Heap.bind, Heap.read_dict. rewrite Hg.
  unfold in_graph.
  destruct (decide (is_Some (d !! p))) as [Hp|Hp].
  - rewrite bool_decide_eq_true_2; [done|].
    by rewrite heap_view_lookup, fmap_is_Some.
  - rewrite bool_decide_eq_false_2; [done|].
    by rewrite heap_view_lookup, fmap_is_Some.
Qed.

Lemma heap_for_body_sim caller gref sref h st n v xs st' :
  simulates caller gref sref h st →
  v ≠ gref → v ≠ sref → h !! v = Some (Heap.List xs) →
  for_body st (n, xs) = inr st' →
  ∃ h', Heap.for_body gref sref (cyclic st) (n, v) h = Some (h', inr (cyclic st')) ∧
        simulates caller gref sref h' st' ∧
        (∀ l, l ≠ gref → l ≠ sref → h' !! l = h !! l).
Proof.
  intros (d & Hg & Hview & Hs & Hne & Hcg & Hcs & Hfr & Hd) Hvg Hvs Hv Hpure.
  unfold Heap.for_body, Heap.bind, Heap.read_list. simpl. rewrite Hv.
  rewrite (heap_for_dependencies_sim h gref d xs Hg).
  simpl in Hpure. rewrite Hview in Hpure.
  destruct (for_dependencies (Heap.view h d) xs).
  - unfold del_item in Hpure. rewrite heap_view_lookup in Hpure.
    unfold Heap.del_item, Heap.bind, Heap.read_dict. rewrite Hg.
    destruct (d !! n) as [vn|] eqn:Hn; simpl in Hpure; [|done].
    injection Hpure as <-. unfold Heap.write, Heap.append, Heap.bind, Heap.read_list.
    rewrite lookup_insert_ne by done. rewrite Hs. simpl.
    eexists. split; [done|]. split.
    + exists (delete n d). split_and!; try done.
      * rewrite lookup_insert_ne by done. by rewrite lookup_insert_eq.
      * simpl. apply map_eq. intros k. rewrite heap_view_lookup.
        destruct (decide (k = n)) as [->|Hk].
        { by rewrite !lookup_delete_eq. }
        rewrite !lookup_delete_ne by done. rewrite heap_view_lookup.
        destruct (d !! k) as [vk|] eqn:Hdk; [|done]. simpl. f_equal.
        destruct (Hd k vk Hdk) as (? & ? & _).
        apply heap_deref_agree. by rewrite !lookup_insert_ne.
      * by rewrite lookup_insert_eq.
      * intros l Hl. rewrite !lookup_insert_ne; [by apply Hfr|..];
          intros ->; destruct Hl; congruence.
      * intros k vk Hk. apply lookup_delete_Some in Hk as [_ Hk].
        destruct (Hd k vk Hk) as (? & ? & ys & Hys). split_and!; [done..|].
        exists ys. by rewrite !lookup_insert_ne.
    + intros l ??. by rewrite !lookup_insert_ne.
  - injection Hpure as <-. eexists. split; [done|]. split; [|done].
    exists d. by split_and!.
Qed.

Lemma heap_for_items_sim caller gref sref items h st st' :
  simulates caller gref sref h st →
  (∀ n v, (n, v) ∈ items →
     v ≠ gref ∧ v ≠ sref ∧ ∃ xs, h !! v = Some (Heap.List xs)) →
  for_items (prod_map id (Heap.deref h) <$> items) st = inr st' →
  ∃ h', Heap.for_items gref sref items (cyclic st) h
        = Some (h', inr (cyclic st')) ∧
        simulates caller gref sref h' st'.
Proof.
  revert h st. induction items as [|[n v] items IH]; intros h st Hsim Hwf Hpure.
  - injection Hpure as <-. by exists h.
  - destruct (Hwf n v) as (Hvg & Hvs & xs & Hv); [left|].
    simpl in Hpure. unfold Heap.deref in Hpure at 1. rewrite Hv in Hpure.
    fold (for_body st (n, xs)) in Hpure.
    destruct (for_body st (n, xs)) as [e|st1] eqn:Hbody; [done|].
    destruct (heap_for_body_sim caller gref sref h st n v xs st1)
      as (h1 & Hrun & Hsim1 & Hsame); [done..|].
    simpl. unfold Heap.bind. rewrite Hrun.
    apply (IH h1 st1); [done| |].
    + intros m w Hin. destruct (Hwf m w) as (? & ? & ys & Hys); [by right|].
      split_and!; [done..|]. exists ys. by rewrite Hsame.
    + rewrite <-Hpure. f_equal. apply list_fmap_ext.
      intros i [m w] Hi. simpl. f_equal.
      destruct (Hwf m w) as (? & ? & _).
      { right. by eapply list_elem_of_lookup_2. }
      apply heap_deref_agree. by apply Hsame.
Qed.

Lemma heap_while_graph_sim caller gref sref fuel h st :
  simulates caller gref sref h st →
  size (graph st) ≤ fuel →
  ∃ h' res,
    Heap.while_graph fuel gref sref h = Some (h', res) ∧
    (∀ l, is_Some (caller !! l) → h' !! l = caller !! l) ∧
    match res, while_graph map_to_list fuel st with
    | inr s, Some (Return l) => s = sref ∧ h' !! s = Some (Heap.List l)
    | inl e, Some (Raise e') => e = e'
    | _, _ => False
    end.
Proof.
  revert h st. induction fuel as [|fuel IH]; intros h st Hsim Hsz.
  - pose proof Hsim as (d & Hg & Hview & Hs & _ & _ & _ & Hfr & _).
    assert (graph st = ∅) as He by (apply map_size_empty_iff; lia).
    assert (d = ∅) as Hd0.
    { apply (fmap_empty_inv (Heap.deref h)). by rewrite <-He, Hview. }
    simpl. unfold Heap.bind, Heap.read_dict. rewrite Hg.
    exists h, (inr sref). by rewrite !decide_True by done.
  - pose proof Hsim as (d & Hg & Hview & Hs & _ & _ & _ & Hfr & Hd).
    simpl. unfold Heap.bind at 1. unfold Heap.read_dict. rewrite Hg.
    destruct (decide (graph st = ∅)) as [He|Hne].
    { assert (d = ∅) as Hd0.
      { apply (fmap_empty_inv (Heap.deref h)). by rewrite <-He, Hview. }
      exists h, (inr sref). by rewrite decide_True by done. }
    rewrite decide_False by (intros ->; apply Hne; by rewrite Hview).
    destruct (while_body_emits st) as (ns & g' & Hrun & Hem & _).
    rewrite Hrun.
    set (st0 := {| graph := graph st; sorted_nodes := sorted_nodes st; cyclic := true |}).
    set (st' := {| graph := g'; sorted_nodes := sorted_nodes st ++ ns;
                   cyclic := if ns is [] then true else false |}) in *.
    destruct (heap_for_items_sim caller gref sref (sorted (map_to_list d)) h st0 st')
      as (h1 & Hrun1 & Hsim1).
    + destruct Hsim as (d' & ? & ? & ? & ? & ? & ? & ? & ?).
      exists d'. by split_and!.
    + intros n v Hin. rewrite sorted_Permutation in Hin.
      apply elem_of_map_to_list in Hin. by apply (Hd n v).
    + rewrite <-Hrun. unfold while_body. fold st0. f_equal.
      rewrite Hview. unfold Heap.view. rewrite map_to_list_fmap.
      symmetry. apply sorted_fmap, NoDup_fst_map_to_list.
    + simpl in Hrun1. unfold Heap.bind. rewrite Hrun1.
      pose proof Hsim1 as (d1 & Hg1 & Hview1 & _ & _ & _ & _ & Hfr1 & _).
      destruct ns as [|n ns]; simpl.
      * unfold Heap.format, Heap.bind, Heap.read_dict, Heap.raise. rewrite Hg1.
        eexists _, _. split; [done|]. split; [done|]. simpl in Hview1.
        by rewrite Hview1.
      * apply (IH h1 st'); [done|]. simpl. apply emits_size in Hem.
        simpl in Hem. lia.
Qed.

(** The copy: every entry of the new dict refers to a list that was
    allocated by the copy, and stands for the list of the original. *)
Lemma heap_deepcopy_items_spec (caller : Heap.heap) (y s : Heap.loc) :
  ∀ items memo (h : Heap.heap) dy,
    NoDup items.*1 →
    (∀ k v, (k, v) ∈ items → ∃ xs, caller !! v = Some (Heap.List xs)) →
    (∀ l, is_Some (caller !! l) → h !! l = caller !! l) →
    h !! y = Some (Heap.Dict dy) →
    h !! s = Some (Heap.List []) →
    y ≠ s → caller !! y = None →
    (∀ v v' xs, memo !! v = Some v' → caller !! v = Some (Heap.List xs) →
       caller !! v' = None ∧ v' ≠ y ∧ v' ≠ s ∧ h !! v' = Some (Heap.List xs)) →
    (∀ k v', dy !! k = Some v' →
       caller !! v' = None ∧ v' ≠ y ∧ v' ≠ s ∧
       ∃ xs, h !! v' = Some (Heap.List xs)) →
    ∃ h' dy',
      Heap.deepcopy_items y memo items h = Some (h', inr tt) ∧
      (∀ l, is_Some (caller !! l) → h' !! l = caller !! l) ∧
      h' !! y = Some (Heap.Dict dy') ∧
      h' !! s = Some (Heap.List []) ∧
      (∀ k v', dy' !! k = Some v' →
         caller !! v' = None ∧ v' ≠ y ∧ v' ≠ s ∧
         ∃ xs, h' !! v' = Some (Heap.List xs)) ∧
      (∀ k, Heap.view h' dy' !! k
            = match (list_to_map items : gmap string Heap.loc) !! k with
              | Some v => Some (Heap.deref caller v)
              | None => Heap.view h dy !! k
              end).
Proof.
  induction items as [|[k v] items IH];
    intros memo h dy Hnd Hit Hfr Hy Hs Hys Hcy Hmemo Hdy.
  - exists h, dy. by split_and!.
  - simpl in Hnd. apply NoDup_cons in Hnd as [Hk Hnd].
    destruct (Hit k v) as [xs Hv]; [left|].
    assert (h !! v = Some (Heap.List xs)) as Hhv.
    { rewrite Hfr; [done|by eexists]. }
    (* the copy [v'] of the list, the memo and the heap after it *)
    assert (∃ memo' v' h1,
      Heap.deepcopy_list memo v h = Some (h1, inr (memo', v')) ∧
      caller !! v' = None ∧ v' ≠ y ∧ v' ≠ s ∧
      h1 !! v' = Some (Heap.List xs) ∧
      (∀ l, is_Some (h !! l) → h1 !! l = h !! l) ∧
      (∀ w w' ys, memo' !! w = Some w' → caller !! w = Some (Heap.List ys) →
         caller !! w' = None ∧ w' ≠ y ∧ w' ≠ s ∧ h1 !! w' = Some (Heap.List ys)))
      as (memo' & v' & h1 & Hcopy & Hcv' & Hv'y & Hv's & Hh1v' & Hsame & Hmemo').
    { unfold Heap.deepcopy_list. destruct (memo !! v) as [v'|] eqn:Hmv.
      - destruct (Hmemo v v' xs Hmv Hv) as (? & ? & ? & ?).
        exists memo, v', h. by split_and!.
      - unfold Heap.bind, Heap.read_list, Heap.alloc. rewrite Hhv. simpl.
        set (v' := fresh (dom h)).
        assert (h !! v' = None) as Hfresh.
        { apply not_elem_of_dom, is_fresh. }
        assert (caller !! v' = None) as Hcf.
        { destruct (caller !! v') eqn:Hc; [|done].
          rewrite Hfr in Hfresh by (by eexists). congruence. }
        exists (<[v := v']> memo), v', (<[v' := Heap.List xs]> h).
        split_and!; [done|done|congruence|congruence| | |].
        + by rewrite lookup_insert_eq.
        + intros l [o Hl]. rewrite lookup_insert_ne; [done|congruence].
        + intros w w' ys Hw Hcw. destruct (decide (w = v)) as [->|Hwv].
          * rewrite lookup_insert_eq in Hw. injection Hw as <-.
            rewrite Hv in Hcw. injection Hcw as <-.
            split_and!; [done|congruence|congruence|].
            by rewrite lookup_insert_eq.
          * rewrite lookup_insert_ne in Hw by done.
            destruct (Hmemo w w' ys Hw Hcw) as (? & ? & ? & Hw').
            split_and!; [done..|]. rewrite lookup_insert_ne; [done|congruence]. }
    simpl. unfold Heap.bind at 1. rewrite Hcopy. simpl.
    unfold Heap.bind at 1. unfold Heap.read_dict.
    rewrite (Hsame y) by (by eexists). rewrite Hy.
    unfold Heap.bind, Heap.write.
    set (h2 := <[y := Heap.Dict (<[k := v']> dy)]> h1).
    assert (∀ l, l ≠ y → is_Some (h !! l) → h2 !! l = h !! l) as Hsame2.
    { intros l Hl Hsl. unfold h2. rewrite lookup_insert_ne by done.
      by apply Hsame. }
    destruct (IH memo' h2 (<[k := v']> dy)) as (h' & dy' & Hrun & Hfr' & Hy' & Hs' & Hdy' & Hview);
      [done| | | | |done|done| | |].
    + intros k' w Hin. apply (Hit k' w). by right.
    + intros l Hl. rewrite Hsame2; [by apply Hfr| |].
      * intros ->. rewrite Hcy in Hl. by destruct Hl.
      * by rewrite Hfr.
    + unfold h2. by rewrite lookup_insert_eq.
    + rewrite Hsame2; [done|done|by eexists].
    + intros w w' ys Hw Hcw. destruct (Hmemo' w w' ys Hw Hcw) as (? & ? & ? & Hw').
      split_and!; [done..|]. unfold h2. by rewrite lookup_insert_ne.
    + intros k' u Hu. destruct (decide (k' = k)) as [->|Hkk].
      * rewrite lookup_insert_eq in Hu. injection Hu as <-.
        split_and!; [done..|]. exists xs. unfold h2. by rewrite lookup_insert_ne.
      * rewrite lookup_insert_ne in Hu by done.
        destruct (Hdy k' u Hu) as (? & ? & ? & ys & Hu').
        split_and!; [done..|]. exists ys. rewrite Hsame2; [done|done|by eexists].
    + exists h', dy'. split_and!; [done..|].
      intros k'. rewrite Hview. destruct (decide (k' = k)) as [->|Hkk].
      * rewrite lookup_insert_eq.
        rewrite (not_elem_of_list_to_map_1 _ k) by done.
        rewrite heap_view_lookup, lookup_insert_eq. simpl. f_equal.
        unfold Heap.deref, h2. rewrite lookup_insert_ne by done.
        by rewrite Hh1v', Hv.
      * rewrite lookup_insert_ne by done.
        destruct (list_to_map items !! k'); [done|].
        rewrite !heap_view_lookup, lookup_insert_ne by done.
        destruct (dy !! k') as [u|] eqn:Hu; [|done]. simpl. f_equal.
        destruct (Hdy k' u Hu) as (? & ? & ? & ys & Hu').
        apply heap_deref_agree. apply Hsame2; [done|by eexists].
Qed.

Lemma heap_holds_graph (h : Heap.heap) x :
  Heap.holds_graph h x = true →
  ∃ d, h !! x = Some (Heap.Dict d) ∧
       ∀ k v, d !! k = Some v → ∃ xs, h !! v = Some (Heap.List xs).
Proof.
  unfold Heap.holds_graph. destruct (h !! x) as [[d|]|]; [|done..].
  intros Hall. exists d. split; [done|]. intros k v Hkv.
  rewrite forallb_forall in Hall.
  specialize (Hall (k, v)). simpl in Hall. unfold Heap.holds_list in Hall.
  destruct (h !! v) as [[|xs]|]; [|by exists xs|].
  - discriminate Hall. apply list_elem_of_In. by apply elem_of_map_to_list.
  - discriminate Hall. apply list_elem_of_In. by apply elem_of_map_to_list.
Qed.

(** C6: on a heap where [dep_graph] refers to a dependency graph, the
    call ends, every object of the caller's heap is afterwards as it was
    before, among them the dict and the lists it refers to, so the caller
    sees the same graph through [dep_graph]; this holds when the call
    returns and when it raises. What the call produces is what
    [topological_sorting] produces on the graph passed by value, the
    returned list being a new object. *)
Theorem C6_caller_graph_unchanged (h : Heap.heap) (dep_graph : Heap.loc) :
  Heap.holds_graph h dep_graph = true →
  ∃ h' res,
    Heap.topological_sorting dep_graph h = Some (h', res) ∧
    (∀ l, is_Some (h !! l) → h' !! l = h !! l) ∧
    Heap.graph_at h' dep_graph = Heap.graph_at h dep_graph ∧
    match res, topological_sorting (Heap.graph_at h dep_graph) with
    | inr s, Some (Return l) => h !! s = None ∧ h' !! s = Some (Heap.List l)
    | inl e, Some (Raise e') => e = e'
    | _, _ => False
    end.
Proof.
  intros (d & Hx & Hd)%heap_holds_graph.
  unfold Heap.topological_sorting, Heap.bind at 1. unfold Heap.alloc.
  set (s := fresh (dom h)). set (hs := <[s := Heap.List []]> h).
  assert (h !! s = None) as Hs by apply not_elem_of_dom, is_fresh.
  assert (dep_graph ≠ s) as Hxs by congruence.
  unfold Heap.bind at 1. unfold Heap.deepcopy, Heap.bind at 1.
  unfold Heap.read_dict at 1.
  assert (hs !! dep_graph = Some (Heap.Dict d)) as Hsx.
  { unfold hs. by rewrite lookup_insert_ne. }
  rewrite Hsx. unfold Heap.bind at 1. unfold Heap.alloc.
  set (y := fresh (dom hs)). set (hy := <[y := Heap.Dict ∅]> hs).
  assert (hs !! y = None) as Hy by apply not_elem_of_dom, is_fresh.
  assert (y ≠ s) as Hys.
  { intros Heq. unfold hs in Hy. by rewrite Heq, lookup_insert_eq in Hy. }
  assert (h !! y = None) as Hcy.
  { unfold hs in Hy. by rewrite lookup_insert_ne in Hy. }
  destruct (heap_deepcopy_items_spec h y s (map_to_list d) {[dep_graph := y]} hy ∅)
    as (h1 & dy & Hcopy & Hfr1 & Hy1 & Hs1 & Hdy & Hview).
  { apply NoDup_fst_map_to_list. }
  { intros k v Hin. apply elem_of_map_to_list in Hin. by apply (Hd k v). }
  { intros l [o Hl]. unfold hy, hs. rewrite !lookup_insert_ne; congruence. }
  { unfold hy. by rewrite lookup_insert_eq. }
  { unfold hy, hs. rewrite lookup_insert_ne by done. by rewrite lookup_insert_eq. }
  { done. }
  { done. }
  { intros v v' xs Hm Hv. apply lookup_singleton_Some in Hm as [<- <-]. congruence. }
  { intros k v'. by rewrite lookup_empty. }
  unfold Heap.bind at 1. rewrite Hcopy. unfold Heap.ret at 1.
  unfold Heap.bind at 1. unfold Heap.read_dict. rewrite Hy1.
  assert (Heap.view h1 dy = Heap.view h d) as Hsame.
  { apply map_eq. intros k. rewrite Hview, list_to_map_to_list.
    rewrite (heap_view_lookup h d k). destruct (d !! k); [done|].
    by rewrite heap_view_lookup, lookup_empty. }
  assert (Heap.graph_at h dep_graph = Heap.view h d) as Hgraph.
  { unfold Heap.graph_at. by rewrite Hx. }
  destruct (heap_while_graph_sim h y s (size dy) h1 (initial (Heap.view h d)))
    as (h' & res & Hrun & Hfr & Hres).
  { exists dy. simpl. split_and!; try done.
    intros k v Hkv. by destruct (Hdy k v Hkv) as (? & ? & ? & ?). }
  { simpl. rewrite <-Hsame. unfold Heap.view. by rewrite map_size_fmap. }
  exists h', res. split; [done|]. split; [done|]. split.
  - unfold Heap.graph_at. rewrite Hfr by (by eexists). rewrite Hx.
    apply map_eq. intros k. rewrite !heap_view_lookup.
    destruct (d !! k) as [v|] eqn:Hk; [|done]. simpl. f_equal.
    apply heap_deref_agree, Hfr. destruct (Hd k v Hk) as [xs ->]. by eexists.
  - rewrite Hgraph. unfold topological_sorting, topological_sorting_with.
    fold (initial (Heap.view h d)).
    assert (size (Heap.view h d) = size dy) as ->.
    { rewrite <-Hsame. unfold Heap.view. by rewrite map_size_fmap. }
    destruct res as [e|s'],
      (while_graph map_to_list (size dy) (initial (Heap.view h d))) as [[l|e']|];
      try done.
    destruct Hres as [-> Hl]. done.
Qed.

Lemma C6_caller_graph_unchanged_witness :
  ∃ h' res,
    Heap.topological_sorting 1%positive Heap.sample_heap = Some (h', res) ∧
    (∀ l, is_Some (Heap.sample_heap !! l) → h' !! l = Heap.sample_heap !! l) ∧
    Heap.graph_at h' 1%positive = Heap.graph_at Heap.sample_heap 1%positive ∧
    match res, topological_sorting (Heap.graph_at Heap.sample_heap 1%positive) with
    | inr s, Some (Return l) =>
        Heap.sample_heap !! s = None ∧ h' !! s = Some (Heap.List l)
    | inl e, Some (Raise e') => e = e'
    | _, _ => False
    end.
Proof.
  apply (C6_caller_graph_unchanged Heap.sample_heap 1%positive).
  vm_compute. reflexivity.
Defined.

(** ** file_contains_lines *)

Section file_contains_lines_facts.
Variable search : string → string → bool.

Lemma for_enumerate_past_end steps line i (regexps : list string) :
  length regexps ≤ i → for_enumerate search steps line i regexps = regexps.
Proof.
  intros Hlen. destruct steps; [done|]. simpl.
  by rewrite (proj2 (lookup_ge_None regexps i) Hlen).
Qed.

(** The loop with its index at the end of [pre] leaves [pre] as it is
    and, of the rest, what [survivors] says. *)
Lemma for_enumerate_survivors steps line (pre rest : list string) :
  length rest ≤ steps →
  for_enumerate search steps line (length pre) (pre ++ rest)
  = pre ++ survivors search line rest.
Proof.
  revert pre rest. induction steps as [|steps IH]; intros pre rest Hlen.
  - destruct rest; [done|simpl in Hlen; lia].
  - destruct rest as [|r rest].
    { rewrite for_enumerate_past_end; [done|]. rewrite length_app. simpl. lia. }
    simpl in *. rewrite list_lookup_middle by done.
    destruct (search r line).
    + assert (delete (length pre) (pre ++ r :: rest) = pre ++ rest) as ->.
      { rewrite delete_middle. done. }
      destruct rest as [|next rest].
      * rewrite app_nil_r. apply for_enumerate_past_end. lia.
      * simpl in Hlen. specialize (IH (pre ++ [next]) rest).
        rewrite length_app, <-app_assoc in IH. simpl in IH.
        rewrite Nat.add_1_r in IH. rewrite IH by lia.
        by rewrite <-app_assoc.
    + specialize (IH (pre ++ [r]) rest).
      rewrite length_app, <-app_assoc in IH. simpl in IH.
      rewrite Nat.add_1_r in IH. rewrite IH by lia.
      by rewrite <-app_assoc.
Qed.

Lemma for_line_survivors regexps line :
  for_line search regexps line = survivors search line regexps.
Proof.
  unfold for_line. by rewrite (for_enumerate_survivors _ line [] regexps).
Qed.

(** More steps than elements change nothing: the iterator has ended. *)
Lemma for_enumerate_steps steps line regexps :
  length regexps ≤ steps →
  for_enumerate search steps line 0 regexps = for_line search regexps line.
Proof.
  intros Hlen. rewrite for_line_survivors.
  by rewrite (for_enumerate_survivors _ line [] regexps).
Qed.

(** [survivors] passes over two elements at a time, so facts about it
    are proved by induction on a bound of the length. *)
Lemma survivors_ind (P : list string → Prop) :
  P [] → (∀ r, P [r]) →
  (∀ r next rest, P rest → P (next :: rest) → P (r :: next :: rest)) →
  ∀ regexps, P regexps.
Proof.
  intros Hnil Hone Hstep regexps.
  assert (P regexps ∧ ∀ r, P (r :: regexps)) as [? _]; [|done].
  induction regexps as [|next rest [IH1 IH2]]; [by split|].
  split; [apply IH2|]. intros r. by apply Hstep.
Qed.

Lemma survivors_sublist line regexps :
  survivors search line regexps `sublist_of` regexps.
Proof.
  induction regexps as [|r|r next rest IH1 IH2] using survivors_ind.
  - done.
  - simpl. destruct (search r line); [by apply sublist_cons|done].
  - change (survivors search line (r :: next :: rest)) with
      (if search r line then next :: survivors search line rest
       else r :: survivors search line (next :: rest)).
    destruct (search r line).
    + by apply sublist_cons, sublist_skip.
    + by apply sublist_skip.
Qed.

Lemma survivors_or_matched line regexps p :
  p ∈ regexps → p ∈ survivors search line regexps ∨ search p line = true.
Proof.
  induction regexps as [|r|r next rest IH1 IH2] using survivors_ind; intros Hp.
  - by apply elem_of_nil in Hp.
  - apply list_elem_of_singleton in Hp as ->. simpl.
    destruct (search r line); [by right|left; left].
  - change (survivors search line (r :: next :: rest)) with
      (if search r line then next :: survivors search line rest
       else r :: survivors search line (next :: rest)).
    destruct (search r line) eqn:Hr.
    + apply elem_of_cons in Hp as [->|Hp]; [by right|].
      apply elem_of_cons in Hp as [->|Hp]; [left; left|].
      destruct (IH1 Hp); [left; by right|by right].
    + apply elem_of_cons in Hp as [->|Hp]; [left; left|].
      destruct (IH2 Hp); [left; by right|by right].
Qed.

Lemma for_lines_or_matched lines regexps p :
  p ∈ regexps →
  p ∈ foldl (for_line search) regexps lines ∨
  ∃ line, line ∈ lines ∧ search p line = true.
Proof.
  revert regexps. induction lines as [|line lines IH]; intros regexps Hp.
  - by left.
  - simpl. rewrite for_line_survivors.
    destruct (survivors_or_matched line regexps p Hp) as [Hs|Hm].
    + destruct (IH _ Hs) as [?|(l & ? & ?)]; [by left|].
      right. exists l. split; [by right|done].
    + right. exists line. split; [left|done].
Qed.

(** X1: when [file_contains_lines] answers [True], every pattern
    matches some line of the file. *)
Theorem X1_file_contains_lines_sound lines patterns p :
  file_contains_lines search lines patterns = true →
  p ∈ patterns →
  ∃ line, line ∈ lines ∧ search p line = true.
Proof.
  unfold file_contains_lines. intros Hres Hp.
  destruct (for_lines_or_matched lines patterns p Hp) as [Hin|?]; [|done].
  destruct (foldl (for_line search) patterns lines); [|done].
  by apply elem_of_nil in Hin.
Qed.

(** Where the line matches at most one of the patterns, the loop takes
    out the pattern that matches and nothing else. *)
Lemma survivors_filter line regexps :
  length (filter (λ p, search p line = true) regexps) ≤ 1 →
  survivors search line regexps = filter (λ p, search p line = false) regexps.
Proof.
  induction regexps as [|r|r next rest IH1 IH2] using survivors_ind.
  - done.
  - intros _. simpl. rewrite filter_cons, filter_nil.
    destruct (search r line) eqn:Hr.
    + by rewrite decide_False.
    + by rewrite decide_True.
  - change (survivors search line (r :: next :: rest)) with
      (if search r line then next :: survivors search line rest
       else r :: survivors search line (next :: rest)).
    rewrite !(filter_cons _ r). destruct (search r line) eqn:Hr.
    + rewrite decide_True by done. rewrite decide_False by done.
      simpl. intros Hlen.
      assert (filter (λ p, search p line = true) (next :: rest) = []) as Hnone.
      { destruct (filter _ (next :: rest)); [done|simpl in Hlen; lia]. }
      rewrite filter_cons in Hnone. rewrite filter_cons.
      destruct (search next line) eqn:Hn.
      { by rewrite decide_True in Hnone. }
      rewrite decide_False in Hnone by done. rewrite decide_True by done.
      f_equal. apply IH1. rewrite Hnone. simpl. lia.
    + rewrite decide_False by done. rewrite decide_True by done.
      intros Hlen. f_equal. by apply IH2.
Qed.

Lemma filter_length_sublist (P : string → Prop) `{!∀ x, Decision (P x)}
    (l1 l2 : list string) :
  l1 `sublist_of` l2 → length (filter P l1) ≤ length (filter P l2).
Proof.
  intros Hsub. apply sublist_length.
  induction Hsub as [|x l1 l2 _ IH|x l1 l2 _ IH].
  - done.
  - rewrite !filter_cons. case_decide; [by apply sublist_skip|done].
  - rewrite filter_cons. case_decide; [by apply sublist_cons|done].
Qed.

Lemma for_lines_filter lines patterns regexps :
  Forall (λ line, length (filter (λ p, search p line = true) patterns) ≤ 1)
    lines →
  regexps `sublist_of` patterns →
  foldl (for_line search) regexps lines
  = filter (λ p, Forall (λ line, search p line = false) lines) regexps.
Proof.
  intros Hone. revert regexps.
  induction Hone as [|line lines Hline _ IH]; intros regexps Hsub.
  - simpl. symmetry. clear Hsub. induction regexps as [|r regexps IHr]; [done|].
    rewrite filter_cons, decide_True by constructor. by f_equal.
  - simpl. rewrite for_line_survivors, survivors_filter.
    + rewrite IH by (etrans; [apply sublist_filter|done]).
      rewrite list_filter_filter. apply list_filter_iff.
      intros p. rewrite Forall_cons. tauto.
    + etrans; [|exact Hline]. by apply filter_length_sublist.
Qed.

(** X2: where no line of the file matches more than one of the
    patterns, [file_contains_lines] answers [True] exactly when every
    pattern matches some line. *)
Theorem X2_file_contains_lines_exact lines patterns :
  Forall (λ line, length (filter (λ p, search p line = true) patterns) ≤ 1)
    lines →
  file_contains_lines search lines patterns = true ↔
  Forall (λ p, Exists (λ line, search p line = true) lines) patterns.
Proof.
  intros Hone. unfold file_contains_lines.
  rewrite (for_lines_filter lines patterns patterns Hone) by done.
  clear Hone. induction patterns as [|p patterns IH].
  - split; [constructor|done].
  - rewrite filter_cons, Forall_cons.
    destruct (decide (Forall (λ line, search p line = false) lines)) as [Hno|Hsome].
    + split; [done|]. intros [Hex _]. exfalso.
      apply Exists_exists in Hex as (line & Hin & Hm).
      rewrite Forall_forall in Hno. specialize (Hno line Hin). congruence.
    + rewrite IH. split; [|tauto]. intros Hall. split; [|done].
      apply not_Forall_Exists in Hsome; [|apply _].
      eapply Exists_impl; [exact Hsome|]. simpl. intros line Hm.
      by destruct (search p line).
Qed.

(** X3: a line that matches a pattern takes it out and is not tried on
    the pattern that follows it: that pattern stays, whether the line
    matches it or not, and the loop goes on with the one after. *)
Theorem X3_for_line_passes_over pre p q post line :
  Forall (λ r, search r line = false) pre →
  search p line = true →
  for_line search (pre ++ p :: q :: post) line
  = pre ++ q :: for_line search post line.
Proof.
  intros Hpre Hp. rewrite !for_line_survivors.
  induction Hpre as [|r pre Hr _ IH].
  - simpl. by rewrite Hp.
  - change ((r :: pre) ++ p :: q :: post) with (r :: (pre ++ p :: q :: post)).
    destruct (pre ++ p :: q :: post) as [|x l] eqn:Heq.
    { by destruct pre. }
    simpl. rewrite Hr. simpl in IH. by rewrite IH.
Qed.

Lemma survivors_length line regexps :
  length regexps ≤ 2 * length (survivors search line regexps) + 1.
Proof.
  induction regexps as [|r|r next rest IH1 IH2] using survivors_ind.
  - simpl. lia.
  - simpl. destruct (search r line); simpl; lia.
  - change (survivors search line (r :: next :: rest)) with
      (if search r line then next :: survivors search line rest
       else r :: survivors search line (next :: rest)).
    destruct (search r line); simpl in *; lia.
Qed.

(** X4: one line takes out at most every second pattern, so a file can
    only get [True] for fewer than [2 ^ n] patterns when it has [n]
    lines, whatever the lines and the patterns are. *)
Theorem X4_file_contains_lines_bound lines patterns :
  file_contains_lines search lines patterns = true →
  length patterns < 2 ^ length lines.
Proof.
  unfold file_contains_lines. intros Hres.
  assert (∀ regexps,
    length regexps + 1 ≤
    2 ^ length lines * (length (foldl (for_line search) regexps lines) + 1))
    as Hbound.
  { clear Hres. induction lines as [|line lines' IH]; intros regexps; [simpl; lia|].
    simpl foldl. rewrite for_line_survivors.
    specialize (IH (survivors search line regexps)).
    pose proof (survivors_length line regexps).
    change (length (line :: lines')) with (S (length lines')).
    rewrite Nat.pow_succ_r'. nia. }
  specialize (Hbound patterns).
  destruct (foldl (for_line search) patterns lines); [|done].
  simpl in Hbound. lia.
Qed.
End file_contains_lines_facts.

Lemma X1_file_contains_lines_sound_witness :
  ∃ line, line ∈ ["b"; "a"] ∧ String.eqb "a" line = true.
Proof.
  apply (X1_file_contains_lines_sound String.eqb ["b"; "a"] ["a"; "b"] "a").
  - vm_compute. reflexivity.
  - left.
Defined.

Lemma X2_file_contains_lines_exact_witness :
  file_contains_lines String.eqb ["b"; "a"] ["a"; "b"] = true ↔
  Forall (λ p, Exists (λ line, String.eqb p line = true) ["b"; "a"]) ["a"; "b"].
Proof.
  apply (X2_file_contains_lines_exact String.eqb ["b"; "a"] ["a"; "b"]).
  repeat constructor.
Defined.

Lemma X3_for_line_passes_over_witness :
  for_line String.prefix (["x"] ++ "a" :: "ab" :: ["abc"]) "abc"
  = ["x"] ++ "ab" :: for_line String.prefix ["abc"] "abc".
Proof.
  apply (X3_for_line_passes_over String.prefix ["x"] "a" "ab" ["abc"] "abc").
  - repeat constructor.
  - reflexivity.
Defined.

Lemma X4_file_contains_lines_bound_witness :
  length ["a"; "b"] < 2 ^ length ["b"; "a"].
Proof.
  apply (X4_file_contains_lines_bound String.eqb ["b"; "a"] ["a"; "b"]).
  vm_compute. reflexivity.
Defined.

(** ** http_retry *)

Section http_retry_facts.
Context {V E : Type}.
Variable status_codes : list Z.
Variable attempts : nat.
Variable fn : nat → call_result V E.

Lemma for_attempt_ends remaining attempt k :
  attempt ≤ k → k < attempt + remaining → k ≤ attempts →
  (∀ n, attempt ≤ n < k →
     ∃ status_code, fn n = RaisesHTTPError status_code ∧
                    status_code ∈ status_codes) →
  ends_loop status_codes attempts fn k →
  ∀ slept,
    for_attempt status_codes attempts fn remaining attempt slept
    = WrappedRun (Some (fn k)) k (slept + (k - attempt)).
Proof.
  revert attempt. induction remaining as [|remaining IH];
    intros attempt Hle Hlt Hk Hretried Hends slept; [lia|].
  simpl. destruct (decide (attempt = k)) as [->|Hne].
  - replace (slept + (k - k)) with slept by lia.
    destruct (fn k) as [v|code|e] eqn:Hfn; [done| |done].
    destruct Hends as [Heq|Hends].
    + rewrite (bool_decide_eq_true_2 (k = attempts)) by done.
      by rewrite orb_true_r.
    + by rewrite (bool_decide_eq_true_2 _ (Hends code Hfn)).
  - destruct (Hretried attempt) as (code & -> & Hcode); [lia|].
    rewrite bool_decide_eq_false_2 by (by intros ?).
    rewrite bool_decide_eq_false_2 by lia. simpl.
    rewrite (IH (S attempt)); [f_equal; lia|lia|lia|done| |done].
    intros n Hn. apply Hretried. lia.
Qed.

(** X6: the decorated call goes on calling the function as long as
    the call raises an HTTP error with one of the status codes and
    attempts are left, and produces what the first other call produces,
    or the last attempt: its value or its exception, after one sleep
    before each call but the first. *)
Theorem X6_http_retry_first_ending_call k :
  1 ≤ k ≤ attempts →
  all_retried status_codes fn k →
  ends_loop status_codes attempts fn k →
  _wrapped status_codes attempts fn = WrappedRun (Some (fn k)) k (k - 1).
Proof.
  intros Hk Hretried Hends. unfold _wrapped.
  rewrite (for_attempt_ends attempts 1 k); [done|lia|lia|lia| |done].
  intros n Hn. by apply Hretried.
Qed.

Lemma ends_loop_dec k :
  ends_loop status_codes attempts fn k ∨
  ∃ status_code, fn k = RaisesHTTPError status_code ∧
                 status_code ∈ status_codes.
Proof.
  destruct (fn k) as [v|code|e] eqn:Hfn.
  - left. right. congruence.
  - destruct (decide (code ∈ status_codes)) as [Hin|Hnin].
    + right. by exists code.
    + left. right. congruence.
  - left. right. congruence.
Qed.

Lemma first_ending_call n :
  n ≤ attempts →
  all_retried status_codes fn (S n) ∨
  ∃ k, 1 ≤ k ≤ n ∧ all_retried status_codes fn k ∧
       ends_loop status_codes attempts fn k.
Proof.
  induction n as [|n IH]; intros Hn.
  - left. intros m Hm. lia.
  - destruct IH as [Hall|(k & Hk & ? & ?)]; [lia| |].
    + destruct (ends_loop_dec (S n)) as [Hends|Hretry].
      * right. exists (S n). split; [lia|done].
      * left. intros m Hm. destruct (decide (m = S n)) as [->|]; [done|].
        apply Hall. lia.
    + right. exists k. split; [lia|done].
Qed.

(** X5: with at least one attempt the decorated call never falls out of
    the loop: it calls the function between once and [attempts] times,
    sleeps once between two calls, and produces what the last of these
    calls produced; every call before the last raised an HTTP error with
    one of the status codes. *)
Theorem X5_http_retry_calls :
  1 ≤ attempts →
  ∃ k, 1 ≤ k ≤ attempts ∧
       _wrapped status_codes attempts fn = WrappedRun (Some (fn k)) k (k - 1) ∧
       all_retried status_codes fn k ∧
       ends_loop status_codes attempts fn k.
Proof.
  intros Hpos.
  assert (∃ k, 1 ≤ k ≤ attempts ∧ all_retried status_codes fn k ∧
               ends_loop status_codes attempts fn k) as (k & Hk & Hall & Hends).
  { destruct (first_ending_call (attempts - 1)) as [Hall|(k & Hk & ? & ?)]; [lia| |].
    - exists attempts. split; [lia|]. split; [|by left].
      by replace (S (attempts - 1)) with attempts in Hall by lia.
    - exists k. split; [lia|done]. }
  exists k. split; [done|]. split; [|done].
  by apply X6_http_retry_first_ending_call.
Qed.
End http_retry_facts.

Lemma X6_http_retry_first_ending_call_witness :
  _wrapped [500; 502]%Z 3 fails_once = WrappedRun (Some (fails_once 2)) 2 (2 - 1).
Proof.
  apply (X6_http_retry_first_ending_call [500; 502]%Z 3 fails_once 2).
  - lia.
  - intros n Hn. assert (n = 1) as -> by lia.
    exists 500%Z. split; [reflexivity|left].
  - right. intros status_code Hfn. discriminate Hfn.
Defined.

Lemma X5_http_retry_calls_witness :
  ∃ k, 1 ≤ k ≤ 3 ∧
       _wrapped [500; 502]%Z 3 fails_once = WrappedRun (Some (fails_once k)) k (k - 1) ∧
       all_retried [500; 502]%Z fails_once k ∧
       ends_loop [500; 502]%Z 3 fails_once k.
Proof. apply (X5_http_retry_calls [500; 502]%Z 3 fails_once). lia. Defined.

(** ** normversion and extract_env_version *)

Lemma split_cons_inv sep s : ∃ piece pieces, split sep s = piece :: pieces.
Proof.
  destruct s as [|c s]; simpl; [by eexists _, _|].
  case_decide; [by eexists _, _|]. destruct (split sep s); by eexists _, _.
Qed.

Lemma split_no_sep sep s : Forall (λ piece, sep ∉ chars piece) (split sep s).
Proof.
  induction s as [|c s IH]; simpl.
  - constructor; [apply not_elem_of_nil|constructor].
  - case_decide as Hc.
    + constructor; [apply not_elem_of_nil|done].
    + destruct (split sep s) as [|piece pieces].
      * constructor; [|constructor]. simpl. rewrite elem_of_cons.
        intros [?|Hin]; [done|by apply elem_of_nil in Hin].
      * apply Forall_cons in IH as [Hp Hps]. constructor; [|done].
        simpl. rewrite elem_of_cons. intros [?|?]; done.
Qed.

Lemma concat_cons_cons sep piece piece' pieces :
  String.concat sep (piece :: piece' :: pieces)
  = piece +:+ sep +:+ String.concat sep (piece' :: pieces).
Proof. done. Qed.

Lemma string_app_cons c s1 s2 : String c s1 +:+ s2 = String c (s1 +:+ s2).
Proof. done. Qed.

Lemma string_app_assoc s1 s2 s3 : (s1 +:+ s2) +:+ s3 = s1 +:+ s2 +:+ s3.
Proof.
  induction s1 as [|c s1 IH]; [done|]. by rewrite !string_app_cons, IH.
Qed.

Lemma string_app_empty_r s : s +:+ "" = s.
Proof.
  induction s as [|c s IH]; [done|]. by rewrite string_app_cons, IH.
Qed.

(** Joining the pieces with the separator gives the string back. *)
Lemma concat_split sep s : String.concat (String sep "") (split sep s) = s.
Proof.
  induction s as [|c s IH]; [done|]. simpl split.
  destruct (split_cons_inv sep s) as (piece & pieces & Hs). rewrite Hs in *.
  case_decide as Hc.
  - subst c. rewrite concat_cons_cons, IH. done.
  - destruct pieces as [|piece' pieces].
    + simpl in *. by rewrite IH.
    + rewrite concat_cons_cons. rewrite concat_cons_cons in IH.
      rewrite string_app_cons. by rewrite IH.
Qed.

Lemma split_sep_cons sep s : split sep (String sep s) = "" :: split sep s.
Proof. simpl. by rewrite decide_True. Qed.

Lemma split_app_no_sep sep a s :
  sep ∉ chars a →
  split sep (a +:+ s)
  = match split sep s with
    | piece :: pieces => (a +:+ piece) :: pieces
    | [] => [a]
    end.
Proof.
  intros Ha. induction a as [|c a IH].
  - change ("" +:+ s) with s.
    by destruct (split_cons_inv sep s) as (piece & pieces & ->).
  - simpl in Ha. rewrite not_elem_of_cons in Ha. destruct Ha as [Hc Ha].
    rewrite string_app_cons. simpl split.
    rewrite decide_False by done. rewrite IH by done.
    by destruct (split_cons_inv sep s) as (piece & pieces & ->).
Qed.

(** Splitting what was joined gives the pieces back, where no piece has
    the separator in it and there is a piece at all. *)
Lemma split_concat sep pieces :
  pieces ≠ [] → Forall (λ piece, sep ∉ chars piece) pieces →
  split sep (String.concat (String sep "") pieces) = pieces.
Proof.
  intros Hne Hall. induction Hall as [|piece pieces Hp Hall IH]; [done|].
  destruct pieces as [|piece' pieces].
  - simpl. pose proof (split_app_no_sep sep piece "" Hp) as Hs.
    simpl in Hs. by rewrite string_app_empty_r in Hs.
  - rewrite concat_cons_cons. rewrite split_app_no_sep by done.
    rewrite string_app_cons.
    change ("" +:+ String.concat (String sep "") (piece' :: pieces))
      with (String.concat (String sep "") (piece' :: pieces)).
    rewrite split_sep_cons, IH by done. by rewrite string_app_empty_r.
Qed.

Lemma split_length_no_sep sep s :
  sep ∉ chars s ↔ length (split sep s) ≤ 1.
Proof.
  induction s as [|c s IH]; simpl.
  - split; [lia|]. intros _. apply not_elem_of_nil.
  - rewrite not_elem_of_cons. case_decide as Hc.
    + simpl. destruct (split_cons_inv sep s) as (piece & pieces & ->).
      simpl. split; [by intros [? _]|lia].
    + destruct (split_cons_inv sep s) as (piece & pieces & Hs).
      rewrite Hs in *. simpl in *. rewrite IH. split; [by intros [_ ?]|].
      intros ?. split; [by intros ->|done].
Qed.

Lemma concat_snoc sep pieces piece :
  pieces ≠ [] →
  String.concat sep (pieces ++ [piece])
  = String.concat sep pieces +:+ sep +:+ piece.
Proof.
  intros Hne. induction pieces as [|p pieces IH]; [done|].
  destruct pieces as [|p' pieces]; [done|].
  change ((p :: p' :: pieces) ++ [piece]) with (p :: (p' :: pieces) ++ [piece]).
  change ((p' :: pieces) ++ [piece]) with (p' :: (pieces ++ [piece])) at 1.
  rewrite !concat_cons_cons.
  change (p' :: pieces ++ [piece]) with ((p' :: pieces) ++ [piece]).
  rewrite IH by done. by rewrite !string_app_assoc.
Qed.

Lemma normversion_split version :
  split "." (normversion version)
  = split "." version ++ replicate (3 - length (split "." version)) "0".
Proof.
  unfold normversion.
  destruct (split_cons_inv "." version) as (p & ps & Hs).
  pose proof (split_no_sep "." version) as Hno.
  rewrite Hs in *. case_decide as Hlen.
  - apply split_concat; [done|]. apply Forall_app. split; [done|].
    apply Forall_replicate. by apply (bool_decide_unpack _).
  - rewrite <-Hs, concat_split. rewrite Hs.
    replace (3 - length (p :: ps)) with 0 by lia. by rewrite app_nil_r.
Qed.

(** X7: [normversion] keeps the components of the version and adds
    components ["0"] behind them until there are three; so the result is
    the version itself followed by [".0.0"], by [".0"] or by nothing,
    for one, two, or more components. *)
Theorem X7_normversion_components version :
  split "." (normversion version)
  = split "." version ++ replicate (3 - length (split "." version)) "0" ∧
  normversion version
  = version +:+ match length (split "." version) with
                | 1 => ".0.0"
                | 2 => ".0"
                | _ => ""
                end.
Proof.
  split; [apply normversion_split|]. unfold normversion.
  destruct (split_cons_inv "." version) as (p & ps & Hs).
  pose proof (concat_split "." version) as Hcs.
  rewrite Hs in *. case_decide as Hlen.
  - destruct ps as [|p' [|p'' ps]]; simpl in Hlen; [| |lia].
    + simpl length. change (replicate (3 - 1) "0") with (["0"; "0"] : list string).
      change ([p] ++ ["0"; "0"]) with (([p] ++ ["0"]) ++ ["0"]).
      rewrite !concat_snoc by done. rewrite Hcs.
      by rewrite !string_app_assoc.
    + simpl length. change (replicate (3 - 2) "0") with (["0"] : list string).
      rewrite concat_snoc by done. by rewrite Hcs.
  - rewrite Hcs. destruct ps as [|p' [|p'' ps]]; simpl in Hlen; [lia..|].
    simpl. by rewrite string_app_empty_r.
Qed.

(** X8: a version of three components or more is its own normal form,
    and normalising twice is normalising once. *)
Theorem X8_normversion_idempotent version :
  (3 ≤ length (split "." version) → normversion version = version) ∧
  normversion (normversion version) = normversion version.
Proof.
  assert (∀ v, 3 ≤ length (split "." v) → normversion v = v) as Hfix.
  { intros v Hlen. unfold normversion. rewrite decide_False by lia.
    apply concat_split. }
  split; [apply Hfix|]. apply Hfix.
  rewrite normversion_split, length_app, length_replicate. lia.
Qed.

Lemma chars_app s1 s2 : chars (s1 +:+ s2) = chars s1 ++ chars s2.
Proof.
  induction s1 as [|c s1 IH]; [done|]. rewrite string_app_cons. simpl.
  by rewrite IH.
Qed.

(** X9: for a release version that has the separator in it,
    [extract_env_version] returns what stands between the first
    separator and the second, or the end. *)
Theorem X9_extract_env_version_second_part a b rest :
  "-"%char ∉ chars a → "-"%char ∉ chars b →
  rest = "" ∨ (∃ c, rest = String "-" c) →
  extract_env_version (a +:+ "-" +:+ b +:+ rest) = inr b.
Proof.
  intros Ha Hb Hrest. unfold extract_env_version.
  rewrite decide_False.
  - rewrite split_app_no_sep by done. rewrite string_app_cons.
    change ("" +:+ b +:+ rest) with (b +:+ rest).
    rewrite split_sep_cons. rewrite split_app_no_sep by done.
    destruct (split_cons_inv "-" rest) as (p & ps & Hs). rewrite Hs. simpl.
    destruct Hrest as [->|[c ->]].
    + injection Hs as <- <-. by rewrite string_app_empty_r.
    + rewrite split_sep_cons in Hs. injection Hs as <- _.
      by rewrite string_app_empty_r.
  - intros Heq.
    assert ("-"%char ∈ chars (a +:+ "-" +:+ b +:+ rest)) as Hin.
    { rewrite chars_app, string_app_cons. simpl. apply elem_of_app. right. left. }
    rewrite Heq in Hin. revert Hin. by apply (bool_decide_unpack _).
Qed.

Lemma X9_extract_env_version_second_part_witness :
  extract_env_version ("2014.1.1" +:+ "-" +:+ "5.0.2" +:+ "") = inr "5.0.2".
Proof.
  apply (X9_extract_env_version_second_part "2014.1.1" "5.0.2" "").
  - by apply (bool_decide_unpack _).
  - by apply (bool_decide_unpack _).
  - by left.
Defined.

(** X10: [extract_env_version] returns ["5.0"] for the one version
    ["2014.1"], and it raises [IndexError] exactly for the release
    versions without a separator, that one apart. *)
Theorem X10_extract_env_version_index_error release_version :
  extract_env_version "2014.1" = inr "5.0" ∧
  (extract_env_version release_version = inl IndexError ↔
   release_version ≠ "2014.1" ∧ "-"%char ∉ chars release_version).
Proof.
  split; [done|].
  unfold extract_env_version. rewrite (split_length_no_sep "-").
  case_decide as Hspecial.
  - split; [done|]. by intros [? _].
  - destruct (split "-" release_version !! 1) as [part|] eqn:Hpart.
    + apply lookup_lt_Some in Hpart. split; [done|]. intros [_ ?]. lia.
    + apply lookup_ge_None in Hpart. split; [|done]. intros _. split; [done|lia].
Qed.

(** ** dict_merge and sanitize *)

Lemma value_size_list_elem (l : list value) x :
  x ∈ l → value_size x ≤ foldr (λ x n, value_size x + n) 0 l.
Proof.
  induction 1 as [x l|x y l _ IH]; simpl; lia.
Qed.

Lemma value_size_dict_elem (d : gmap string value) k x :
  d !! k = Some x → value_size x ≤ map_fold (λ _ x n, value_size x + n) 0 d.
Proof.
  intros Hk. rewrite <-(insert_delete_id d k x Hk).
  rewrite map_fold_insert_L.
  - lia.
  - intros. lia.
  - apply lookup_delete_eq.
Qed.

(** Induction on objects: a list with its elements, a dict with its
    values. *)
Lemma value_ind (P : value → Prop) :
  (∀ s, P (VStr s)) → (∀ n, P (VInt n)) → (∀ b, P (VBool b)) → P VNone →
  (∀ l, Forall P l → P (VList l)) →
  (∀ d, map_Forall (λ _, P) d → P (VDict d)) →
  ∀ v, P v.
Proof.
  intros Hstr Hint Hbool Hnone Hlist Hdict v.
  remember (value_size v) as n eqn:Hn. revert v Hn.
  induction (lt_wf n) as [n _ IH]. intros [s|z|b| |l|d] ->; auto.
  - apply Hlist, Forall_forall. intros x Hx.
    apply (IH (value_size x)); [|done].
    pose proof (value_size_list_elem l x Hx). simpl. lia.
  - apply Hdict. intros k x Hk.
    apply (IH (value_size x)); [|done].
    pose proof (value_size_dict_elem d k x Hk). simpl. lia.
Qed.

Lemma _helper_lookup keywords mask (d : gmap string value) k :
  map_imap (λ option v,
    Some (if any_key_in keywords option then VStr mask
          else _helper keywords mask v)) d !! k
  = (λ v, if any_key_in keywords k then VStr mask
          else _helper keywords mask v) <$> d !! k.
Proof. rewrite map_lookup_imap. by destruct (d !! k). Qed.

Lemma _helper_dict keywords mask d :
  _helper keywords mask (VDict d)
  = VDict (map_imap (λ option v,
             Some (if any_key_in keywords option then VStr mask
                   else _helper keywords mask v)) d).
Proof. done. Qed.

Lemma _helper_list keywords mask l :
  _helper keywords mask (VList l) = VList (_helper keywords mask <$> l).
Proof. done. Qed.

(** X11: without keywords [sanitize] returns the object as it is. *)
Theorem X11_sanitize_no_keywords obj mask : sanitize obj [] mask = obj.
Proof.
  unfold sanitize. induction obj as [| | | |l IH|d IH] using value_ind; try done.
  - rewrite _helper_list. f_equal. induction IH as [|x l Hx _ IHl]; [done|].
    csimpl. by rewrite Hx, IHl.
  - rewrite _helper_dict. f_equal. apply map_eq. intros k.
    rewrite _helper_lookup.
    destruct (d !! k) as [x|] eqn:Hk; [|done]. simpl.
    by rewrite (IH k x Hk).
Qed.

(** X12: sanitising a sanitised object changes nothing. *)
Theorem X12_sanitize_idempotent obj keywords mask :
  sanitize (sanitize obj keywords mask) keywords mask
  = sanitize obj keywords mask.
Proof.
  unfold sanitize. induction obj as [| | | |l IH|d IH] using value_ind; try done.
  - rewrite !_helper_list. f_equal. rewrite <-list_fmap_compose.
    induction IH as [|x l Hx _ IHl]; [done|].
    csimpl. by rewrite Hx, IHl.
  - rewrite !_helper_dict. f_equal. apply map_eq. intros k.
    rewrite !_helper_lookup.
    destruct (d !! k) as [x|] eqn:Hk; [|done]. simpl. f_equal.
    destruct (any_key_in keywords k); [done|]. by apply (IH k x).
Qed.

(** X13: in the sanitised object every option of a dict that has a
    keyword in its name holds the mask, at whatever depth of dicts and
    lists the dict lies. *)
Theorem X13_sanitize_masks obj keywords mask path k v :
  lookup_path (path ++ [Key k]) (sanitize obj keywords mask) = Some v →
  any_key_in keywords k = true →
  v = VStr mask.
Proof.
  unfold sanitize. intros Hv Hk. revert path Hv.
  induction obj as [| | | |l IH|d IH] using value_ind; intros path Hv;
    try (by destruct path as [|[]]).
  - destruct path as [|[k'|i] path]; [done..|].
    rewrite _helper_list in Hv. simpl in Hv.
    rewrite list_lookup_fmap in Hv.
    destruct (l !! i) as [x|] eqn:Hi; [|done]. simpl in Hv.
    rewrite Forall_forall in IH. apply (IH x) with path; [|done].
    by eapply list_elem_of_lookup_2.
  - rewrite _helper_dict in Hv.
    destruct path as [|[k'|i] path]; simpl in Hv.
    + rewrite _helper_lookup in Hv. rewrite Hk in Hv.
      destruct (d !! k); simpl in Hv; congruence.
    + rewrite _helper_lookup in Hv.
      destruct (d !! k') as [x|] eqn:Hk'; [|done]. simpl in Hv.
      destruct (any_key_in keywords k').
      * by destruct path as [|[]].
      * by apply (IH k' x Hk' path).
    + done.
Qed.

(** X14: along a path none of whose keys has a keyword in its name,
    the sanitised object holds the sanitised value of the original: the
    shape of the object is kept, and a leaf on such a path is the leaf
    of the original. *)
Theorem X14_sanitize_keeps_plain obj keywords mask path :
  Forall (plain_step keywords) path →
  lookup_path path (sanitize obj keywords mask)
  = (λ v, sanitize v keywords mask) <$> lookup_path path obj.
Proof.
  unfold sanitize. intros Hpath. revert obj.
  induction Hpath as [|[k|i] path Hst _ IH]; intros obj; [done| |].
  - destruct obj as [| | | |l|d]; try done. rewrite _helper_dict. simpl.
    rewrite _helper_lookup. simpl in Hst. rewrite Hst.
    destruct (d !! k) as [x|]; [|done]. simpl. apply IH.
  - destruct obj as [| | | |l|d]; try done. rewrite _helper_list. simpl.
    rewrite list_lookup_fmap. destruct (l !! i) as [x|]; [|done]. simpl.
    apply IH.
Qed.

Lemma X13_sanitize_masks_witness : VStr "******" = VStr "******".
Proof.
  apply (X13_sanitize_masks sample_settings ["pass"] "******"
           [Key "user"] "password" (VStr "******")).
  - vm_compute. reflexivity.
  - vm_compute. reflexivity.
Defined.

Lemma X14_sanitize_keeps_plain_witness :
  lookup_path [Key "user"; Key "name"] (sanitize sample_settings ["pass"] "******")
  = (λ v, sanitize v ["pass"] "******")
      <$> lookup_path [Key "user"; Key "name"] sample_settings.
Proof.
  apply (X14_sanitize_keeps_plain sample_settings ["pass"] "******"
           [Key "user"; Key "name"]).
  repeat constructor.
Defined.

Lemma dict_merge_dict (a b' : gmap string value) :
  dict_merge a (VDict b')
  = VDict (map_imap (λ k v,
             Some match a !! k with
                  | Some (VDict a') => dict_merge a' v
                  | _ => v
                  end) b' ∪ a).
Proof. done. Qed.

Lemma dict_merge_lookup (a b' : gmap string value) k :
  (map_imap (λ k v,
     Some match a !! k with
          | Some (VDict a') => dict_merge a' v
          | _ => v
          end) b' ∪ a) !! k
  = match b' !! k with
    | Some v =>
        Some match a !! k with
             | Some (VDict a') => dict_merge a' v
             | _ => v
             end
    | None => a !! k
    end.
Proof.
  rewrite lookup_union, map_lookup_imap.
  destruct (b' !! k) as [v|]; simpl.
  - by rewrite union_Some_l.
  - by rewrite (left_id None _).
Qed.

(** X15: merging with an empty dict on either side gives the other dict,
    and merging a dict with itself gives it back. *)
Theorem X15_dict_merge_identities (a : gmap string value) :
  dict_merge a (VDict ∅) = VDict a ∧
  dict_merge ∅ (VDict a) = VDict a ∧
  dict_merge a (VDict a) = VDict a.
Proof.
  split_and!.
  - rewrite dict_merge_dict. f_equal. apply map_eq. intros k.
    rewrite dict_merge_lookup. by rewrite lookup_empty.
  - rewrite dict_merge_dict. f_equal. apply map_eq. intros k.
    rewrite dict_merge_lookup, lookup_empty. by destruct (a !! k).
  - assert (∀ v, ∀ d, v = VDict d → dict_merge d v = v) as Hself; [|by apply Hself].
    intros v. induction v as [| | | |l IH|d' IH] using value_ind; try done.
    intros d [= <-]. rewrite dict_merge_dict. f_equal. apply map_eq. intros k.
    rewrite dict_merge_lookup. destruct (d' !! k) as [x|] eqn:Hk; [|done].
    f_equal. destruct x as [| | | | |dx]; try done.
    by apply (IH k (VDict dx) Hk).
Qed.

Lemma silent_lookup_path path b : silent path b → lookup_path path b = None.
Proof.
  revert b. induction path as [|[k|i] path IH]; intros b Hs; [done| |done].
  destruct b as [| | | | |b']; try done. simpl in *.
  destruct (b' !! k) as [x|]; [|done]. simpl. by apply IH.
Qed.

Lemma silent_head path b :
  silent path b → ∃ k path' b', path = Key k :: path' ∧ b = VDict b'.
Proof.
  destruct path as [|[k|i] path]; [done| |done].
  destruct b as [| | | | |b']; try done. intros _. by eexists _, _, _.
Qed.

(** X16: the result of a merge has the keys of both dicts; and where
    the second dict says nothing about a path, the merge holds at the
    end of the path what the first dict holds there. *)
Theorem X16_dict_merge_first_kept (a b' : gmap string value) :
  (∃ m, dict_merge a (VDict b') = VDict m ∧ dom m = dom a ∪ dom b') ∧
  ∀ path, silent path (VDict b') →
    lookup_path path (dict_merge a (VDict b')) = lookup_path path (VDict a).
Proof.
  split.
  - eexists. split; [apply dict_merge_dict|].
    apply set_eq. intros k. rewrite elem_of_union, !elem_of_dom.
    rewrite dict_merge_lookup. destruct (b' !! k) as [v|].
    + split; [by right; eexists|by eexists].
    + split; [by left|]. by intros [?|[? ?]].
  - intros path. revert a b'.
    induction path as [|[k|i] path IH]; intros a b' Hs; [done| |done].
    rewrite dict_merge_dict.
    change (lookup_path (Key k :: path) (VDict ?m))
      with (m !! k ≫= lookup_path path).
    rewrite dict_merge_lookup. simpl in Hs.
    destruct (b' !! k) as [x|] eqn:Hk; [|done].
    destruct (silent_head path x Hs) as (k2 & path2 & x' & -> & ->).
    destruct (a !! k) as [y|] eqn:Hak.
    + destruct (is_dict y) eqn:Hy.
      * destruct y as [| | | | |a']; try done. by apply IH.
      * pose proof (silent_lookup_path _ _ Hs) as Hnone.
        destruct y; try done; simpl in *; done.
    + pose proof (silent_lookup_path _ _ Hs) as Hnone. simpl in *. done.
Qed.

(** X17: what the second object holds at the end of a path wins: where
    it holds anything but a dict there, the merge holds that same value
    at the end of the same path. *)
Theorem X17_dict_merge_second_wins a b path v :
  lookup_path path b = Some v → is_dict v = false →
  lookup_path path (dict_merge a b) = Some v.
Proof.
  intros Hv Hleaf. revert a path Hv.
  induction b as [| | | |l IH|b' IH] using value_ind; intros a path Hv; try done.
  rewrite dict_merge_dict. destruct path as [|[k|i] path]; simpl in *.
  - injection Hv as <-. done.
  - rewrite dict_merge_lookup. destruct (b' !! k) as [x|] eqn:Hk; [|done].
    simpl in *. destruct (a !! k) as [[| | | | |a']|]; try done.
    by apply (IH k x Hk).
  - done.
Qed.

Lemma X17_dict_merge_second_wins_witness :
  lookup_path [Key "user"; Key "name"]
    (dict_merge {[ "user" := VDict {[ "name" := VStr "root"; "uid" := VInt 0 ]} ]}
       sample_settings)
  = Some (VStr "admin").
Proof.
  apply (X17_dict_merge_second_wins
           {[ "user" := VDict {[ "name" := VStr "root"; "uid" := VInt 0 ]} ]}
           sample_settings [Key "user"; Key "name"] (VStr "admin")).
  - vm_compute. reflexivity.
  - reflexivity.
Defined.

(** ** Sizes on disk *)

Section sizes_facts.
Variable isfile : string → bool.
Variable getsize : string → Z.
Variable isdir : string → bool.
Variable dirname : string → string.
Variable walk : string → list (string * list string).

Lemma sum_sizes_app l1 l2 :
  sum_sizes isfile getsize (l1 ++ l2)
  = (sum_sizes isfile getsize l1 + sum_sizes isfile getsize l2)%Z.
Proof.
  unfold sum_sizes. rewrite filter_app, fmap_app.
  induction (getsize <$> filter _ l1) as [|x l IH]; simpl; lia.
Qed.

(** X18: [files_size] is the number of whole megabytes in the sum of
    the sizes of the regular files of the list: names that are not
    regular files count for nothing, and the rounding down comes after
    the adding up. So the size of two lists of files together is the
    sum of their sizes or one megabyte more. *)
Theorem X18_files_size_app l1 l2 :
  (∀ l, files_size isfile getsize l * 1048576
        ≤ foldr Z.add 0 (getsize <$> filter (λ f, isfile f = true) l)
        < (files_size isfile getsize l + 1) * 1048576)%Z ∧
  (∀ l, files_size isfile getsize l
        = files_size isfile getsize (filter (λ f, isfile f = true) l)) ∧
  (files_size isfile getsize l1 + files_size isfile getsize l2
   ≤ files_size isfile getsize (l1 ++ l2)
   ≤ files_size isfile getsize l1 + files_size isfile getsize l2 + 1)%Z.
Proof.
  split; [|split].
  - intros l. unfold files_size, byte_to_megabyte, sum_sizes.
    generalize (foldr Z.add 0%Z (getsize <$> filter (λ f, isfile f = true) l)).
    intros x. change (1024 ^ 2)%Z with 1048576%Z.
    pose proof (Z.div_mod x 1048576).
    pose proof (Z.mod_pos_bound x 1048576). lia.
  - intros l. unfold files_size, sum_sizes.
    assert (filter (λ f, isfile f = true) (filter (λ f, isfile f = true) l)
            = filter (λ f, isfile f = true) l) as ->; [|done].
    induction l as [|f l IH]; [done|]. rewrite filter_cons.
    destruct (decide (isfile f = true)) as [Hf|Hf]; [|done].
    rewrite filter_cons, decide_True by done. by f_equal.
  - unfold files_size, byte_to_megabyte. rewrite sum_sizes_app.
    generalize (sum_sizes isfile getsize l1) (sum_sizes isfile getsize l2).
    intros x y. change (1024 ^ 2)%Z with 1048576%Z.
    pose proof (Z.div_mod x 1048576). pose proof (Z.div_mod y 1048576).
    pose proof (Z.div_mod (x + y) 1048576).
    pose proof (Z.mod_pos_bound x 1048576). pose proof (Z.mod_pos_bound y 1048576).
    pose proof (Z.mod_pos_bound (x + y) 1048576). lia.
Qed.

Lemma for_filenames_sum dirpath total_size filenames :
  for_filenames isfile getsize dirpath total_size filenames
  = (total_size + sum_sizes isfile getsize (join dirpath <$> filenames))%Z.
Proof.
  unfold for_filenames, sum_sizes. revert total_size.
  induction filenames as [|f filenames IH]; intros total_size; simpl; [lia|].
  rewrite IH. rewrite filter_cons. destruct (isfile (join dirpath f)) eqn:Hf.
  - rewrite decide_True by done. csimpl. by rewrite Z.add_assoc.
  - by rewrite decide_False by done.
Qed.

(** X19: the size of a directory is the size [files_size] gives for
    the files that [os.walk] lists under it, each named by joining its
    directory and its file name. *)
Theorem X19_dir_size_files_size path :
  dir_size isfile getsize walk path
  = files_size isfile getsize (walked_files walk path).
Proof.
  unfold dir_size, files_size, walked_files. f_equal.
  assert (∀ total_size entries,
    foldl (λ total_size entry,
             for_filenames isfile getsize entry.1 total_size entry.2)
          total_size entries
    = (total_size
       + sum_sizes isfile getsize (entry ← entries; join entry.1 <$> entry.2))%Z)
    as Hfold.
  { intros total_size entries. revert total_size.
    induction entries as [|[dirpath filenames] entries IH]; intros total_size.
    - unfold sum_sizes. simpl. lia.
    - simpl foldl. rewrite IH, for_filenames_sum. csimpl.
      rewrite sum_sizes_app. lia. }
  rewrite Hfold. lia.
Qed.
Lemma for_action_copy (rv : gmap string Z) a :
  action_name a = "copy" →
  for_action isfile getsize isdir dirname walk rv a
  = <[action_dst isdir dirname a :=
        (default 0 (rv !! action_dst isdir dirname a)
         + action_size isfile getsize isdir walk a)%Z]> rv.
Proof.
  intros Hcopy. unfold for_action. rewrite decide_True by done. simpl.
  case_decide as Hin; [done|].
  rewrite lookup_insert_eq, insert_insert_eq. simpl.
  apply eq_None_not_Some in Hin. by rewrite Hin.
Qed.

Lemma for_actions_lookup (rv : gmap string Z) actions dst :
  foldl (for_action isfile getsize isdir dirname walk) rv actions !! dst
  = match copies_to isdir dirname dst actions with
    | [] => rv !! dst
    | l =>
        Some (default 0 (rv !! dst)
              + foldr Z.add 0 (action_size isfile getsize isdir walk <$> l))%Z
    end.
Proof.
  revert rv. induction actions as [|a actions IH]; intros rv; [done|].
  simpl foldl. rewrite IH. unfold copies_to. rewrite filter_cons.
  destruct (decide (action_name a = "copy")) as [Hcopy|Hother].
  - rewrite for_action_copy by done.
    destruct (decide (action_dst isdir dirname a = dst)) as [Hdst|Hdst].
    + rewrite decide_True by done. subst dst. rewrite lookup_insert_eq. simpl.
      destruct (filter _ actions) as [|a' l]; simpl; f_equal; lia.
    + rewrite decide_False by tauto. by rewrite lookup_insert_ne.
  - rewrite decide_False by tauto. unfold for_action.
    by rewrite decide_False.
Qed.

(** X20: [get_required_size_for_actions] has a key for every directory
    that some copy action puts its size at, and no other; the value is
    the sum of the sizes of the copy actions that put theirs there.
    Actions of other names count for nothing. *)
Theorem X20_required_size_per_destination actions dst :
  get_required_size_for_actions isfile getsize isdir dirname walk actions !! dst
  = match copies_to isdir dirname dst actions with
    | [] => None
    | l => Some (foldr Z.add 0%Z (action_size isfile getsize isdir walk <$> l))
    end.
Proof.
  unfold get_required_size_for_actions. rewrite for_actions_lookup.
  rewrite lookup_empty. by destruct (copies_to _ _ _ _).
Qed.

Lemma sum_sizes_no_file l :
  Forall (λ f, isfile f = false) l → sum_sizes isfile getsize l = 0%Z.
Proof.
  unfold sum_sizes. induction 1 as [|f l Hf _ IH]; [done|].
  rewrite filter_cons, decide_False by congruence. done.
Qed.

(** X21: a copy action whose source is not a directory hands the path
    of the source, a string, to [files_size], which takes every
    character of it for a file name. Where no name of one character is
    a regular file, such an action adds nothing, and the size required
    at a directory is the sum of [dir_size] over the directories copied
    there. *)
Theorem X21_required_size_counts_directories actions dst :
  (∀ c, isfile (String c "") = false) →
  get_required_size_for_actions isfile getsize isdir dirname walk actions !! dst
  = match copies_to isdir dirname dst actions with
    | [] => None
    | l =>
        Some (foldr Z.add 0%Z
                ((λ a, if isdir (action_from a)
                       then dir_size isfile getsize walk (action_from a)
                       else 0%Z) <$> l))
    end.
Proof.
  intros Hchars. unfold get_required_size_for_actions.
  rewrite for_actions_lookup, lookup_empty.
  assert (∀ l : list action,
    action_size isfile getsize isdir walk <$> l
    = (λ a, if isdir (action_from a)
            then dir_size isfile getsize walk (action_from a)
            else 0%Z) <$> l) as Hsizes.
  { intros l. apply list_fmap_ext. intros _ a _. unfold action_size.
    destruct (isdir (action_from a)); [done|].
    unfold files_size. rewrite sum_sizes_no_file; [done|].
    unfold iter_str. apply Forall_fmap, Forall_forall. intros c _. apply Hchars. }
  destruct (copies_to _ _ _ _) as [|a l]; [done|]. by rewrite Hsizes.
Qed.
End sizes_facts.

Lemma X21_required_size_counts_directories_witness :
  get_required_size_for_actions (λ _, false) (λ _, 5%Z) (λ p, bool_decide (p = "/etc"))
    (λ _, "/var") (λ _, []) [Action "copy" "/etc/hosts" "/var/x"] !! "/var"
  = match copies_to (λ p, bool_decide (p = "/etc")) (λ _, "/var") "/var"
            [Action "copy" "/etc/hosts" "/var/x"] with
    | [] => None
    | l =>
        Some (foldr Z.add 0%Z
                ((λ a, if bool_decide (action_from a = "/etc")
                       then dir_size (λ _, false) (λ _, 5%Z) (λ _, []) (action_from a)
                       else 0%Z) <$> l))
    end.
Proof.
  apply (X21_required_size_counts_directories (λ _, false) (λ _, 5%Z)
           (λ p, bool_decide (p = "/etc")) (λ _, "/var") (λ _, [])
           [Action "copy" "/etc/hosts" "/var/x"] "/var").
  intros c. reflexivity.
Defined.

(** ** verify_postgres_dump *)

Section verify_postgres_dump_facts.
Variable search : string → string → bool.

Lemma survivors_matches_none line regexps :
  matches_none search regexps line → survivors search line regexps = regexps.
Proof.
  induction 1 as [|r regexps Hr _ IH]; [done|].
  simpl. rewrite Hr. destruct regexps; by rewrite IH.
Qed.

Lemma for_lines_matches_none lines regexps :
  Forall (matches_none search regexps) lines →
  foldl (for_line search) regexps lines = regexps.
Proof.
  induction 1 as [|line lines Hline _ IH]; [done|].
  simpl. rewrite for_line_survivors, survivors_matches_none by done. done.
Qed.

Lemma matches_none_sublist l1 l2 line :
  l1 `sublist_of` l2 → matches_none search l2 line → matches_none search l1 line.
Proof.
  unfold matches_none. rewrite !Forall_forall. intros Hsub Hall p Hp.
  apply Hall. by eapply elem_of_sublist.
Qed.

(** X22: [verify_postgres_dump] accepts a dump in which the four marker
    lines stand in the order in which [pg_dumpall] writes them (cluster
    dump, database dump, database dump complete, cluster dump complete),
    with any lines that match none of the patterns before, between and
    after them. *)
Theorem X22_verify_postgres_dump_accepts n0 m0 n1 m1 n2 m2 n3 m3 n4 :
  Forall (matches_none search postgres_patterns) (n0 ++ n1 ++ n2 ++ n3 ++ n4) →
  search "-- PostgreSQL database cluster dump" m0 = true →
  search "-- PostgreSQL database dump complete" m0 = false →
  search "-- PostgreSQL database cluster dump complete" m0 = false →
  search "-- PostgreSQL database dump" m1 = true →
  search "-- PostgreSQL database cluster dump complete" m1 = false →
  search "-- PostgreSQL database dump complete" m2 = true →
  search "-- PostgreSQL database cluster dump complete" m3 = true →
  verify_postgres_dump search
    (Some (n0 ++ m0 :: n1 ++ m1 :: n2 ++ m2 :: n3 ++ m3 :: n4)) = true.
Proof.
  intros Hnoise H00 H02 H03 H11 H13 H22 H33.
  rewrite !Forall_app in Hnoise. destruct Hnoise as (Hn0 & Hn1 & Hn2 & Hn3 & Hn4).
  assert (∀ ns regexps, regexps `sublist_of` postgres_patterns →
    Forall (matches_none search postgres_patterns) ns →
    foldl (for_line search) regexps ns = regexps) as Hskip.
  { intros ns regexps Hsub Hns. apply for_lines_matches_none.
    eapply Forall_impl; [exact Hns|]. intros line. by apply matches_none_sublist. }
  assert (∀ k, drop k postgres_patterns `sublist_of` postgres_patterns) as Hdrop.
  { intros k. apply sublist_drop. }
  pose proof (Hskip n0 _ (Hdrop 0) Hn0) as E0.
  pose proof (Hskip n1 _ (Hdrop 1) Hn1) as E1.
  pose proof (Hskip n2 _ (Hdrop 2) Hn2) as E2.
  pose proof (Hskip n3 _ (Hdrop 3) Hn3) as E3.
  pose proof (Hskip n4 _ (Hdrop 4) Hn4) as E4.
  clear Hskip Hdrop Hn0 Hn1 Hn2 Hn3 Hn4.
  unfold verify_postgres_dump, file_contains_lines, postgres_patterns in *.
  simpl drop in *.
  rewrite foldl_app, E0. simpl foldl at 1.
  rewrite for_line_survivors. simpl survivors. rewrite H00, H02, H03.
  rewrite foldl_app, E1. simpl foldl at 1.
  rewrite for_line_survivors. simpl survivors. rewrite H11, H13.
  rewrite foldl_app, E2. simpl foldl at 1.
  rewrite for_line_survivors. simpl survivors. rewrite H22.
  rewrite foldl_app, E3. simpl foldl at 1.
  rewrite for_line_survivors. simpl survivors. rewrite H33.
  by rewrite E4.
Qed.
End verify_postgres_dump_facts.

Lemma X22_verify_postgres_dump_accepts_witness :
  verify_postgres_dump contains
    (Some (["--"] ++ "-- PostgreSQL database cluster dump" ::
           [] ++ "-- PostgreSQL database dump" ::
           ["CREATE TABLE t ();"] ++ "-- PostgreSQL database dump complete" ::
           [] ++ "-- PostgreSQL database cluster dump complete" :: [""]))
  = true.
Proof.
  apply (X22_verify_postgres_dump_accepts contains).
  - repeat constructor.
  - vm_compute. reflexivity.
  - vm_compute. reflexivity.
  - vm_compute. reflexivity.
  - vm_compute. reflexivity.
  - vm_compute. reflexivity.
  - vm_compute. reflexivity.
  - vm_compute. reflexivity.
Defined.

(** ** file_extension and VersionedFile *)

Example file_extension_samples :
  file_extension "/tmp/file.ext.10" = "10" ∧
  file_extension "/tmp/.hidden" = "" ∧
  file_extension "/tmp.d/file" = "" ∧
  int "007" = Some 7 ∧ str 10 = "10" ∧ isdigit "" = false.
Proof. vm_compute. done. Qed.

Lemma rfind_bounds c p : (-1 ≤ rfind c p < Z.of_nat (length p))%Z.
Proof.
  induction p as [|a p IH]; simpl; [lia|].
  repeat case_decide; lia.
Qed.

Lemma rfind_app_absent c p1 p2 :
  c ∉ p2 → rfind c (p1 ++ p2) = rfind c p1.
Proof.
  intros Hc. induction p1 as [|a p1 IH]; simpl.
  - induction p2 as [|b p2 IH2]; [done|]. simpl.
    rewrite not_elem_of_cons in Hc. destruct Hc as [Hb Hc].
    rewrite IH2 by done. simpl. by rewrite decide_False.
  - by rewrite IH.
Qed.

Lemma rfind_app_last c p1 p2 :
  c ∉ p2 → rfind c (p1 ++ c :: p2) = Z.of_nat (length p1).
Proof.
  intros Hc. induction p1 as [|a p1 IH]; simpl.
  - rewrite <-(app_nil_l p2), rfind_app_absent by done. simpl.
    by rewrite decide_True.
  - rewrite IH. rewrite decide_True by lia. lia.
Qed.

Lemma string_of_chars s : String.string_of_list_ascii (chars s) = s.
Proof. apply String.string_of_list_ascii_of_string. Qed.

Lemma chars_of_string l : chars (String.string_of_list_ascii l) = l.
Proof. apply String.list_ascii_of_string_of_list_ascii. Qed.

(** The extension of a base name followed by a dot and a suffix without
    dot and slash is the suffix, where the last component of the base
    name has a character that is not a dot. *)
Lemma file_extension_suffix pre c post suffix :
  c ≠ "."%char → c ≠ "/"%char → "/"%char ∉ post →
  "."%char ∉ chars suffix → "/"%char ∉ chars suffix →
  file_extension (String.string_of_list_ascii (pre ++ c :: post) +:+ "." +:+ suffix)
  = suffix.
Proof.
  intros Hcdot Hcsep Hpost Hsdot Hssep.
  set (base := pre ++ c :: post).
  unfold file_extension, splitext.
  rewrite chars_app, chars_of_string, string_app_cons.
  change (chars (String "." ("" +:+ suffix))) with ("."%char :: chars suffix).
  rewrite rfind_app_last by done.
  assert (rfind "/" (base ++ "."%char :: chars suffix) = rfind "/" pre) as ->.
  { rewrite rfind_app_absent.
    - unfold base. apply rfind_app_absent. rewrite not_elem_of_cons. by split.
    - rewrite not_elem_of_cons. by split. }
  pose proof (rfind_bounds "/" pre) as Hb.
  assert (length base = length pre + S (length post)) as Hlen.
  { unfold base. rewrite length_app. simpl. lia. }
  rewrite decide_True by lia. rewrite Nat2Z.id.
  rewrite take_app_length.
  assert (existsb (λ a, negb (bool_decide (a = "."%char)))
            (drop (Z.to_nat (rfind "/" pre + 1)) base) = true) as ->.
  { apply existsb_exists. exists c. split.
    - apply list_elem_of_In. unfold base.
      assert (Z.to_nat (rfind "/" pre + 1) ≤ length pre) as Hle by lia.
      apply list_elem_of_lookup_2
        with (i := length pre - Z.to_nat (rfind "/" pre + 1)).
      rewrite lookup_drop.
      replace (Z.to_nat (rfind "/" pre + 1)
               + (length pre - Z.to_nat (rfind "/" pre + 1)))
        with (length pre) by lia.
      by apply list_lookup_middle.
    - by rewrite bool_decide_eq_false_2. }
  cbn [snd]. rewrite drop_app_length, chars_of_string. simpl.
  apply string_of_chars.
Qed.

Lemma int_str n : int (str n) = Some n.
Proof.
  unfold int, str. pose proof (DecimalNat.Unsigned.of_to n) as Hn.
  destruct (Nat.to_uint n) as [| | | | | | | | | |] eqn:Hd;
    [simpl in *; by subst|..];
    rewrite DecimalString.NilZero.usu by done; simpl; by rewrite Hn.
Qed.

Lemma isdigit_int s : isdigit s = true ↔ is_Some (int s).
Proof.
  unfold isdigit, int. rewrite bool_decide_eq_true, fmap_is_Some. done.
Qed.

Lemma digits_only_empty s d c :
  DecimalString.NilEmpty.uint_of_string s = Some d →
  c ∈ chars s → c ≠ "."%char ∧ c ≠ "/"%char.
Proof.
  revert d. induction s as [|a s IH]; intros d Hd Hc; simpl in *.
  - by apply elem_of_nil in Hc.
  - destruct (DecimalString.NilEmpty.uint_of_string s) as [d'|]; [|done].
    apply elem_of_cons in Hc as [->|Hc]; [|by eapply IH].
    apply DecimalString.uint_of_char_spec in Hd.
    destruct Hd as [[-> _]|[[-> _]|[[-> _]|[[-> _]|[[-> _]|[[-> _]|[[-> _]|
      [[-> _]|[[-> _]|[-> _]]]]]]]]]]; by split.
Qed.

Lemma isdigit_chars s c :
  isdigit s = true → c ∈ chars s → c ≠ "."%char ∧ c ≠ "/"%char.
Proof.
  unfold isdigit. rewrite bool_decide_eq_true. intros [d Hd].
  destruct s as [|a s]; [done|]. by apply digits_only_empty with d.
Qed.

(** A list sorted with [reverse=True]: the same elements, keys
    descending. *)
Lemma insert_desc_Permutation {A} (x : nat * A) l : insert_desc x l ≡ₚ x :: l.
Proof.
  induction l as [|y l IH]; [done|]. simpl. case_decide; [done|].
  rewrite IH. apply Permutation_swap.
Qed.

Lemma sorted_desc_Permutation {A} (l : list (nat * A)) : sorted_desc l ≡ₚ l.
Proof.
  induction l as [|x l IH]; [done|]. simpl.
  by rewrite insert_desc_Permutation, IH.
Qed.

Lemma insert_desc_sorted {A} (x : nat * A) l :
  StronglySorted (λ y z, z.1 ≤ y.1) l →
  StronglySorted (λ y z, z.1 ≤ y.1) (insert_desc x l).
Proof.
  induction 1 as [|y l Hs IH Hy]; simpl.
  - repeat constructor.
  - case_decide as Hle.
    + constructor; [by constructor|]. constructor; [done|].
      eapply Forall_impl; [exact Hy|]. simpl. intros z Hz. lia.
    + constructor; [done|]. rewrite insert_desc_Permutation.
      constructor; [lia|done].
Qed.

Lemma sorted_desc_sorted {A} (l : list (nat * A)) :
  StronglySorted (λ y z, z.1 ≤ y.1) (sorted_desc l).
Proof.
  induction l as [|x l IH]; [constructor|]. by apply insert_desc_sorted.
Qed.

Lemma StronglySorted_fmap_Forall {A B} (R1 : relation A) (R2 : relation B)
    (P : A → Prop) (f : A → B) l :
  (∀ x y, P x → P y → R1 x y → R2 (f x) (f y)) →
  Forall P l → StronglySorted R1 l → StronglySorted R2 (f <$> l).
Proof.
  intros HR HP Hs. induction Hs as [|x l Hs IH Hx]; [constructor|].
  apply Forall_cons in HP as [HPx HP]. csimpl. constructor; [by apply IH|].
  rewrite Forall_fmap. rewrite Forall_forall in *.
  intros y Hy. apply HR; auto.
Qed.

Section versioned_file_facts.
Variable basename : string.
Variable glob : list string.

Lemma with_key_numeric :
  ∃ keyed,
    mapM with_key (_files_with_numeric_extension glob) = Some keyed ∧
    keyed.*2 = _files_with_numeric_extension glob ∧
    Forall (λ x, int (file_extension x.2) = Some x.1) keyed.
Proof.
  unfold _files_with_numeric_extension.
  induction glob as [|f l IH]; [by exists []|].
  rewrite filter_cons. case_decide as Hf; [|done].
  destruct IH as (keyed & Hm & Hk & Hall).
  apply isdigit_int in Hf as [n Hn].
  exists ((n, f) :: keyed). split_and!.
  - rewrite mapM_Some in *. constructor; [|done].
    unfold with_key. by rewrite Hn.
  - csimpl. by rewrite Hk.
  - by constructor.
Qed.

Lemma sorted_files_spec :
  ∃ files,
    sorted_files glob = Some files ∧
    files ≡ₚ _files_with_numeric_extension glob ∧
    StronglySorted number_desc files.
Proof.
  destruct with_key_numeric as (keyed & Hm & Hk & Hall).
  exists ((sorted_desc keyed).*2). unfold sorted_files. rewrite Hm. simpl.
  split; [done|]. split.
  - by rewrite sorted_desc_Permutation, Hk.
  - apply (StronglySorted_fmap_Forall (λ y z, z.1 ≤ y.1) number_desc
             (λ x, int (file_extension x.2) = Some x.1)).
    + intros x y Hx Hy Hle. by exists x.1, y.1.
    + by rewrite sorted_desc_Permutation.
    + apply sorted_desc_sorted.
Qed.

Lemma get_last_number_spec :
  ∃ n,
    _get_last_number glob = Some n ∧
    (∀ f m, f ∈ glob → int (file_extension f) = Some m → m ≤ n) ∧
    ((_files_with_numeric_extension glob = [] ∧ n = 0) ∨
     ∃ f, f ∈ glob ∧ int (file_extension f) = Some n).
Proof.
  destruct sorted_files_spec as (files & Hsf & Hperm & Hsorted).
  unfold _get_last_number. rewrite Hsf. simpl.
  assert (∀ f m, f ∈ glob → int (file_extension f) = Some m → f ∈ files) as Hin.
  { intros f m Hf Hm. rewrite Hperm. apply list_elem_of_filter. split; [|done].
    apply isdigit_int. by eexists. }
  destruct files as [|f files].
  - exists 0. split; [done|]. split.
    + intros f m Hf Hm. specialize (Hin f m Hf Hm). by apply elem_of_nil in Hin.
    + left. split; [|done]. by apply Permutation_nil_l in Hperm.
  - assert (f ∈ _files_with_numeric_extension glob) as Hf
      by (rewrite <-Hperm; left).
    apply list_elem_of_filter in Hf as [Hdigit Hf].
    apply isdigit_int in Hdigit as [n Hn]. exists n. split; [done|]. split.
    + intros g m Hg Hm. specialize (Hin g m Hg Hm).
      apply elem_of_cons in Hin as [->|Hin]; [by simplify_eq|].
      apply StronglySorted_cons in Hsorted as [Hall _].
      rewrite Forall_forall in Hall.
      destruct (Hall g Hin) as (m' & n' & ? & ? & ?). simplify_eq. done.
    + right. by exists f.
Qed.

(** X23: [sorted_files] lists the files of the listing whose extension
    is a number, each as often as the listing has it, the highest number
    first. *)
Theorem X23_sorted_files :
  ∃ files,
    sorted_files glob = Some files ∧
    files ≡ₚ filter (λ f, isdigit (file_extension f) = true) glob ∧
    StronglySorted number_desc files.
Proof. apply sorted_files_spec. Qed.

(** X24: [_get_last_number] is the highest number that a file of the
    listing has for its extension, and 0 where no file has a number. *)
Theorem X24_get_last_number_highest :
  ∃ n,
    _get_last_number glob = Some n ∧
    (∀ f m, f ∈ glob → int (file_extension f) = Some m → m ≤ n) ∧
    ((filter (λ f, isdigit (file_extension f) = true) glob = [] ∧ n = 0) ∨
     ∃ f, f ∈ glob ∧ int (file_extension f) = Some n).
Proof. apply get_last_number_spec. Qed.

(** X25: for a base name whose last component has a character other
    than a dot, [next_file_name] is the base name, a dot and the number
    after the highest one, or 1 where no file has a number; and it is
    not the name of a file of the listing. *)
Theorem X25_next_file_name_fresh pre c post :
  basename = String.string_of_list_ascii (pre ++ c :: post) →
  c ≠ "."%char → c ≠ "/"%char → "/"%char ∉ post →
  "{"%char ∉ chars basename → "}"%char ∉ chars basename →
  ∃ n name,
    _get_last_number glob = Some n ∧
    next_file_name basename glob = Some name ∧
    name = basename +:+ "." +:+ str (n + 1) ∧
    file_extension name = str (n + 1) ∧
    (name ∉ glob) ∧
    (filter (λ f, isdigit (file_extension f) = true) glob = [] → n = 0).
Proof.
  intros Hbase Hdot Hsep Hpost _ _.
  destruct get_last_number_spec as (n & Hlast & Hmax & Hsome).
  exists n, (basename +:+ "." +:+ str (n + 1)).
  assert (file_extension (basename +:+ "." +:+ str (n + 1)) = str (n + 1)) as Hext.
  { pose proof (int_str (n + 1)) as Hint.
    assert (isdigit (str (n + 1)) = true) as Hdigit
      by (apply isdigit_int; by eexists).
    rewrite Hbase. apply file_extension_suffix; try done.
    - intros Hin. by destruct (isdigit_chars _ _ Hdigit Hin).
    - intros Hin. by destruct (isdigit_chars _ _ Hdigit Hin). }
  split_and!; try done.
  - unfold next_file_name. by rewrite Hlast.
  - intros Hin. specialize (Hmax _ (n + 1) Hin).
    rewrite Hext, int_str in Hmax. specialize (Hmax eq_refl). lia.
  - intros Hnone. destruct Hsome as [[_ ?]|(f & Hf & Hn)]; [done|].
    assert (f ∈ filter (λ f, isdigit (file_extension f) = true) glob) as Hff.
    { apply list_elem_of_filter. split; [|done]. apply isdigit_int. by eexists. }
    rewrite Hnone in Hff. by apply elem_of_nil in Hff.
Qed.
End versioned_file_facts.

Lemma X25_next_file_name_fresh_witness :
  ∃ n name,
    _get_last_number ["/var/dump.2"; "/var/dump.old"; "/var/dump.10"] = Some n ∧
    next_file_name "/var/dump"
      ["/var/dump.2"; "/var/dump.old"; "/var/dump.10"] = Some name ∧
    name = "/var/dump" +:+ "." +:+ str (n + 1) ∧
    file_extension name = str (n + 1) ∧
    (name ∉ ["/var/dump.2"; "/var/dump.old"; "/var/dump.10"]) ∧
    (filter (λ f, isdigit (file_extension f) = true)
       ["/var/dump.2"; "/var/dump.old"; "/var/dump.10"] = [] → n = 0).
Proof.
  apply (X25_next_file_name_fresh "/var/dump"
           ["/var/dump.2"; "/var/dump.old"; "/var/dump.10"]
           (chars "/var/") "d"%char (chars "ump")).
  - reflexivity.
  - discriminate.
  - discriminate.
  - vm_compute. intros H. repeat (inversion H as [|? ? ? H']; clear H; rename H' into H; subst).
  - vm_compute. intros H. repeat (inversion H as [|? ? ? H']; clear H; rename H' into H; subst).
  - vm_compute. intros H. repeat (inversion H as [|? ? ? H']; clear H; rename H' into H; subst).
Defined.
